(** * Tic-tac-toe: board model and minimax search with alpha-beta pruning

    A shallow embedding of the game logic of [src/App.tsx]
    (getCurrentPlayer, availableMoves, applyMove, winningLines,
    calculateWinner, terminal, utility, maxValueAB, minValueAB, minimaxAB)
    together with the part of the React component that decides who moves
    (the bot effect and [handleClick]).

    Modelling choices.
    - [Square = "X" | "O" | null] is [option Player]; [None] is [null].
    - [Board = Square[]] is a [list Square] of any length; a read
      [board[i]] yields [undefined] outside the array, which is the
      outer [None] of [cell].
    - An index is a JavaScript number; the integers are modelled ([Z]).
    - The numbers flowing through the search are the utilities and the two
      infinities: [Num].
    - [throw new Error(msg)] is the outcome [Throw msg].
    - The two evaluators recurse on a board with one more mark at every
      call; the recursion depth is made explicit by a fuel argument, and
      the entry points supply more fuel than the board has cells. *)

From Stdlib Require Import ZArith Lia Bool.
From stdpp Require Import base list strings gmap relations sorting.

Local Open Scope Z_scope.

(* ===================================================================== *)
(** ** Data model *)
(* ===================================================================== *)

Inductive Player := X | O.

#[global] Instance Player_eq_dec : EqDecision Player.
Proof. solve_decision. Defined.

(** [Square]: a mark or [null]. *)
Abbreviation Square := (option Player).

(** [Board]: an array of squares. *)
Abbreviation Board := (list Square).

(** [humanPlayer === "X" ? "O" : "X"] *)
Definition other (p : Player) : Player :=
  match p with X => O | O => X end.

(** [board[i]]: [None] is [undefined] (index outside the array),
    [Some None] is [null], [Some (Some p)] is a mark. *)
Definition cell (board : Board) (i : Z) : option Square :=
  if (0 <=? i) && (i <? Z.of_nat (length board))
  then board !! Z.to_nat i
  else None.

(** Outcome of a call: a returned value, a thrown [Error] with its message,
    or exhaustion of the recursion budget of the model. *)
Inductive outcome (A : Type) :=
| Ret (a : A)
| Throw (msg : string)
| Fuel.
Arguments Ret {A} a.
Arguments Throw {A} msg.
Arguments Fuel {A}.

#[global] Instance outcome_ret : MRet outcome := fun A a => Ret a.

#[global] Instance outcome_bind : MBind outcome := fun A B k c =>
  match c with
  | Ret a => k a
  | Throw msg => Throw msg
  | Fuel => Fuel
  end.

(** JavaScript numbers occurring in the search. *)
Inductive Num :=
| NegInf
| Fin (z : Z)
| PosInf.

#[global] Instance Num_eq_dec : EqDecision Num.
Proof. solve_decision. Defined.

(** [a < b] *)
Definition Num_ltb (a b : Num) : bool :=
  match a, b with
  | NegInf, NegInf => false
  | NegInf, _ => true
  | Fin _, NegInf => false
  | Fin x, Fin y => x <? y
  | Fin _, PosInf => true
  | PosInf, _ => false
  end.

(** [a > b] *)
Definition Num_gtb (a b : Num) : bool := Num_ltb b a.

(** [a >= b] *)
Definition Num_geb (a b : Num) : bool := negb (Num_ltb a b).

(** [Math.max(a, b)] *)
Definition Num_max (a b : Num) : Num := if Num_ltb a b then b else a.

(** [Math.min(a, b)] *)
Definition Num_min (a b : Num) : Num := if Num_ltb b a then b else a.

Definition Num_lt (a b : Num) : Prop := Num_ltb a b = true.
Definition Num_le (a b : Num) : Prop := Num_ltb b a = false.

(* ===================================================================== *)
(** ** Board model *)
(* ===================================================================== *)

(** [Array(9).fill(null)] *)
Definition initialBoard : Board := replicate 9 None.

(** [board.filter((sq) => sq === p).length] *)
Definition countMarks (p : Player) (board : Board) : nat :=
  length (filter (fun sq => sq = Some p) board).

Definition getCurrentPlayer (board : Board) : Player :=
  let xCount := countMarks X board in
  let oCount := countMarks O board in
  if Nat.eqb xCount oCount then X else O.

(** [board.reduce((acc, sq, idx) => { if (sq === null) acc.push(idx); return acc }, [])]:
    the reduction visits the cells from index 0 upwards; [idx] is the
    index of [sq]. [availableFrom idx rest] is the contribution of the cells
    [rest] that start at index [idx]. *)
Fixpoint availableFrom (idx : Z) (rest : list Square) : list Z :=
  match rest with
  | [] => []
  | sq :: rest' =>
      if decide (sq = None)
      then idx :: availableFrom (idx + 1) rest'
      else availableFrom (idx + 1) rest'
  end.

Definition availableMoves (board : Board) : list Z := availableFrom 0 board.

(** [applyMove]: the guard throws unless [board[move]] is [null]; past the
    guard the index is inside the array, so the store into the copy made by
    [slice] replaces one cell and never grows the array. *)
Definition applyMove (board : Board) (move : Z) (player : Player) : outcome Board :=
  if decide (cell board move = Some None)
  then
    let newBoard := board in
    Ret (<[Z.to_nat move := Some player]> newBoard)
  else Throw "Invalid move".

(** The table of lines; every entry of the source is an array of three
    indices, destructured as [[a, b, c]]. *)
Definition winningLines : list (Z * Z * Z) :=
  [ (0, 1, 2);
    (3, 4, 5);
    (6, 7, 8);
    (0, 3, 6);
    (1, 4, 7);
    (2, 5, 8);
    (0, 4, 8);
    (2, 4, 6) ].

(** The test of the loop body:
    [board[a] && board[a] === board[b] && board[a] === board[c]].
    [board[a]] is truthy exactly when it is a mark. *)
Definition lineWon (board : Board) (line : Z * Z * Z) : bool :=
  let '(a, b, c) := line in
  match cell board a with
  | Some (Some _) =>
      bool_decide (cell board a = cell board b)
      && bool_decide (cell board a = cell board c)
  | _ => false
  end.

(** [for (const line of lines) { if (...) return board[a]; } return null] *)
Fixpoint scanLines (board : Board) (lines : list (Z * Z * Z)) : Square :=
  match lines with
  | [] => None
  | line :: rest =>
      if lineWon board line
      then match cell board (fst (fst line)) with
           | Some sq => sq
           | None => None
           end
      else scanLines board rest
  end.

Definition calculateWinner (board : Board) : Square :=
  scanLines board winningLines.

(** [calculateWinner(board) !== null || board.every((sq) => sq !== null)] *)
Definition terminal (board : Board) : bool :=
  bool_decide (calculateWinner board <> None)
  || forallb (fun sq => bool_decide (sq <> None)) board.

Definition utility (board : Board) : Z :=
  let win := calculateWinner board in
  if decide (win = Some X) then 1
  else if decide (win = Some O) then -1
  else 0.

(* ===================================================================== *)
(** ** Search engine *)
(* ===================================================================== *)

Record MoveResult := mkResult { value : Num; move : option Z }.

(** The [for] loop of [maxValueAB] over the remaining moves, with the loop
    variables [v], [bestMove] and [alpha]; [callMin] is the recursive call
    [minValueAB(nextBoard, alpha, beta)]. *)
Fixpoint maxLoop (callMin : Board -> Num -> Num -> outcome MoveResult)
    (board : Board) (beta : Num)
    (moves : list Z) (v : Num) (bestMove : option Z) (alpha : Num)
    : outcome MoveResult :=
  match moves with
  | [] => Ret (mkResult v bestMove)
  | move :: rest =>
      nextBoard ← applyMove board move X;
      r ← callMin nextBoard alpha beta;
      let minVal := value r in
      let improved := Num_gtb minVal v in
      let v := if improved then minVal else v in
      let bestMove := if improved then Some move else bestMove in
      let alpha := Num_max alpha v in
      if Num_geb alpha beta
      then Ret (mkResult v bestMove)
      else maxLoop callMin board beta rest v bestMove alpha
  end.

(** The [for] loop of [minValueAB]; [callMax] is the recursive call
    [maxValueAB(nextBoard, alpha, beta)]. *)
Fixpoint minLoop (callMax : Board -> Num -> Num -> outcome MoveResult)
    (board : Board) (alpha : Num)
    (moves : list Z) (v : Num) (bestMove : option Z) (beta : Num)
    : outcome MoveResult :=
  match moves with
  | [] => Ret (mkResult v bestMove)
  | move :: rest =>
      nextBoard ← applyMove board move O;
      r ← callMax nextBoard alpha beta;
      let maxVal := value r in
      let improved := Num_ltb maxVal v in
      let v := if improved then maxVal else v in
      let bestMove := if improved then Some move else bestMove in
      let beta := Num_min beta v in
      if Num_geb alpha beta
      then Ret (mkResult v bestMove)
      else minLoop callMax board alpha rest v bestMove beta
  end.

(** The two evaluators. [fuel] bounds the depth of the mutual recursion. *)
Fixpoint maxValueAB (fuel : nat) (board : Board) (alpha beta : Num)
    : outcome MoveResult :=
  match fuel with
  | 0%nat => Fuel
  | S fuel' =>
      if terminal board then Ret (mkResult (Fin (utility board)) None)
      else maxLoop (minValueAB fuel') board beta
             (availableMoves board) NegInf None alpha
  end
with minValueAB (fuel : nat) (board : Board) (alpha beta : Num)
    : outcome MoveResult :=
  match fuel with
  | 0%nat => Fuel
  | S fuel' =>
      if terminal board then Ret (mkResult (Fin (utility board)) None)
      else minLoop (maxValueAB fuel') board alpha
             (availableMoves board) PosInf None beta
  end.

(** Every recursive call adds a mark, so the depth never exceeds the number
    of cells. *)
Definition searchFuel (board : Board) : nat := S (length board).

(** [minimaxAB(board, currentPlayer)]: the move of the evaluator of
    [currentPlayer], or [null]. *)
Definition minimaxAB (board : Board) (currentPlayer : Player)
    : outcome (option Z) :=
  if decide (currentPlayer = X)
  then r ← maxValueAB (searchFuel board) board NegInf PosInf; Ret (move r)
  else r ← minValueAB (searchFuel board) board NegInf PosInf; Ret (move r).

(* ===================================================================== *)
(** ** The component *)
(* ===================================================================== *)

(** One update of the board state by the component, the bot playing
    [botPlayer]:
    - the bot effect: the game is not over, it is the bot's turn,
      [minimaxAB(board, botPlayer)] is not [null], and the board becomes
      [applyMove(board, bestMove, botPlayer)];
    - [handleClick(i)]: the game is not over, [board[i]] is [null] (the
      condition under which [applyMove] returns), it is the human's turn,
      and the board becomes [applyMove(board, i, humanPlayer)].
    While the timer of the bot effect runs it is the bot's turn, so
    [handleClick] returns and the board of the update is the board the move
    was computed for. *)
Inductive step (botPlayer : Player) (board : Board) : Board -> Prop :=
| step_bot bestMove board' :
    terminal board = false ->
    getCurrentPlayer board = botPlayer ->
    minimaxAB board botPlayer = Ret (Some bestMove) ->
    applyMove board bestMove botPlayer = Ret board' ->
    step botPlayer board board'
| step_human i board' :
    terminal board = false ->
    getCurrentPlayer board = other botPlayer ->
    applyMove board i (other botPlayer) = Ret board' ->
    step botPlayer board board'.

(** *** Boards as arrays in a store

    The arrays of the program are mutable objects; [applyMove] receives a
    reference, copies the array with [slice] and writes into the copy. The
    store below makes the references and the write explicit; everywhere else
    a board is the value held by its array. *)

Abbreviation loc := positive.

(** [board.slice()]: the cells are copied into an array at a reference
    that is not in use. *)
Definition slice (s : gmap loc Board) (board : loc) : gmap loc Board * loc :=
  let newBoard := fresh (dom s) in
  (<[newBoard := s !!! board]> s, newBoard).

(** [arr[i] = sq], for an index inside the array. *)
Definition storeCell (s : gmap loc Board) (arr : loc) (i : Z) (sq : Square)
    : gmap loc Board :=
  <[arr := <[Z.to_nat i := sq]> (s !!! arr)]> s.

(** [applyMove] on references: the store after the call, and its outcome. *)
Definition applyMoveRef (s : gmap loc Board) (board : loc) (move : Z)
    (player : Player) : gmap loc Board * outcome loc :=
  if decide (cell (s !!! board) move = Some None)
  then
    let '(s1, newBoard) := slice s board in
    let s2 := storeCell s1 newBoard move (Some player) in
    (s2, Ret newBoard)
  else (s, Throw "Invalid move").

(** *** The state of the component and its handlers

    [BoardComponent] holds three pieces of state ([useState]): the board,
    the side of the human ([null] until chosen) and the theme. The handlers
    below are the functions of the component; the bot effect is taken
    together with its timer callback: the effect is cancelled and scheduled
    again whenever the board or the side changes, so the callback runs on
    the board the effect saw. *)

Module BoardComponent.

Inductive Theme := light | dark.

Record State := mkState {
  board : Board;
  humanPlayer : option Player;
  theme : Theme
}.

(** [useState(initialBoard())], [useState(null)], [useState("light")] *)
Definition initialState : State := mkState initialBoard None light.

Definition setBoard (s : State) (b : Board) : State :=
  mkState b (humanPlayer s) (theme s).

Definition setHumanPlayer (s : State) (h : option Player) : State :=
  mkState (board s) h (theme s).

(** [setTheme((prevTheme) => (prevTheme === "light" ? "dark" : "light"))] *)
Definition toggleTheme (s : State) : State :=
  mkState (board s) (humanPlayer s)
    (match theme s with light => dark | dark => light end).

(** [humanPlayer ? (humanPlayer === "X" ? "O" : "X") : null] *)
Definition botPlayer (s : State) : option Player :=
  match humanPlayer s with
  | Some h => Some (other h)
  | None => None
  end.

(** The effect that lets the bot move, with its timer callback. *)
Definition botEffect (s : State) : outcome State :=
  match humanPlayer s, botPlayer s with
  | Some _, Some bot =>
      if terminal (board s)
         || negb (bool_decide (getCurrentPlayer (board s) = bot))
      then Ret s
      else
        bestMove ← minimaxAB (board s) bot;
        match bestMove with
        | Some m => b' ← applyMove (board s) m bot; Ret (setBoard s b')
        | None => Ret s
        end
  | _, _ => Ret s
  end.

(** [handleClick(i)] *)
Definition handleClick (s : State) (i : Z) : outcome State :=
  match humanPlayer s with
  | None => Ret s
  | Some h =>
      if terminal (board s)
         || negb (bool_decide (cell (board s) i = Some None))
         || negb (bool_decide (getCurrentPlayer (board s) = h))
      then Ret s
      else b' ← applyMove (board s) i h; Ret (setBoard s b')
  end.

(** [restartGame]: [setBoard(initialBoard()); setHumanPlayer(null)] *)
Definition restartGame (s : State) : State :=
  setHumanPlayer (setBoard s initialBoard) None.

(** The mark as the template literal prints it. *)
Definition markString (p : Player) : string :=
  match p with X => "X" | O => "O" end.

(** The status message. *)
Definition status (s : State) : string :=
  match calculateWinner (board s) with
  | Some winner => String.append "Winner: " (markString winner)
  | None =>
      if terminal (board s) then "Draw!"
      else String.append "Next player: "
             (markString (getCurrentPlayer (board s)))
  end.

(** What can happen to the component: a click on one of its buttons, or
    the timer of the bot effect. *)
Inductive Event :=
| ToggleTheme
| ChooseSide (p : Player)
| ClickSquare (i : Z)
| BotTimer
| Restart.

(** The buttons that are rendered: the theme toggle always, the two side
    buttons while no side is chosen, the nine squares and the restart
    button once a side is chosen. *)
Definition rendered (s : State) (e : Event) : bool :=
  match e with
  | ToggleTheme => true
  | ChooseSide _ => bool_decide (humanPlayer s = None)
  | ClickSquare i =>
      bool_decide (humanPlayer s <> None) && (0 <=? i) && (i <=? 8)
  | BotTimer => true
  | Restart => bool_decide (humanPlayer s <> None)
  end.

Definition fire (s : State) (e : Event) : outcome State :=
  match e with
  | ToggleTheme => Ret (toggleTheme s)
  | ChooseSide p => Ret (setHumanPlayer s (Some p))
  | ClickSquare i => handleClick s i
  | BotTimer => botEffect s
  | Restart => Ret (restartGame s)
  end.

(** The states the component goes through. *)
Inductive reachableState : State -> Prop :=
| reachableState_init : reachableState initialState
| reachableState_fire s e s' :
    reachableState s ->
    rendered s e = true ->
    fire s e = Ret s' ->
    reachableState s'.

End BoardComponent.

(* ===================================================================== *)
(** ** Notions of the specification *)
(* ===================================================================== *)

(** *** Unpruned minimax

    The reference search of the specification: the same move order and
    the same strict-improvement rule, without bounds and without cut-off. *)

Fixpoint maxLoopBF (callMin : Board -> outcome MoveResult) (board : Board)
    (moves : list Z) (v : Num) (bestMove : option Z) : outcome MoveResult :=
  match moves with
  | [] => Ret (mkResult v bestMove)
  | move :: rest =>
      nextBoard ← applyMove board move X;
      r ← callMin nextBoard;
      let improved := Num_gtb (value r) v in
      maxLoopBF callMin board rest
        (if improved then value r else v)
        (if improved then Some move else bestMove)
  end.

Fixpoint minLoopBF (callMax : Board -> outcome MoveResult) (board : Board)
    (moves : list Z) (v : Num) (bestMove : option Z) : outcome MoveResult :=
  match moves with
  | [] => Ret (mkResult v bestMove)
  | move :: rest =>
      nextBoard ← applyMove board move O;
      r ← callMax nextBoard;
      let improved := Num_ltb (value r) v in
      minLoopBF callMax board rest
        (if improved then value r else v)
        (if improved then Some move else bestMove)
  end.

Fixpoint maxValue (fuel : nat) (board : Board) : outcome MoveResult :=
  match fuel with
  | 0%nat => Fuel
  | S fuel' =>
      if terminal board then Ret (mkResult (Fin (utility board)) None)
      else maxLoopBF (minValue fuel') board (availableMoves board) NegInf None
  end
with minValue (fuel : nat) (board : Board) : outcome MoveResult :=
  match fuel with
  | 0%nat => Fuel
  | S fuel' =>
      if terminal board then Ret (mkResult (Fin (utility board)) None)
      else minLoopBF (maxValue fuel') board (availableMoves board) PosInf None
  end.

(** The unpruned evaluator of a player, at the fuel of the entry point. *)
Definition minimax (board : Board) (player : Player) : outcome MoveResult :=
  if decide (player = X)
  then maxValue (searchFuel board) board
  else minValue (searchFuel board) board.

(** The pruned evaluator of a player at the root window
    (-Infinity, +Infinity), value and move: what [minimaxAB] takes the move
    of. *)
Definition searchAB (board : Board) (player : Player) : outcome MoveResult :=
  if decide (player = X)
  then maxValueAB (searchFuel board) board NegInf PosInf
  else minValueAB (searchFuel board) board NegInf PosInf.

(** Value of the position reached by [move], as seen by the evaluator
    [callBF] of the opponent. *)
Definition childValue (callBF : Board -> outcome MoveResult)
    (board : Board) (p : Player) (m : Z) : outcome Num :=
  nextBoard ← applyMove board m p; r ← callBF nextBoard; Ret (value r).

(** Value, by unpruned minimax, of the position that [p] reaches with the
    move [m]; the opponent is to move there. *)
Definition moveValue (board : Board) (p : Player) (m : Z) : outcome Num :=
  childValue (fun nb => minimax nb (other p)) board p m.

(** [prefers p a b]: the player [p] likes [a] at least as much as [b]. *)
Definition prefers (p : Player) (a b : Num) : Prop :=
  match p with X => Num_le b a | O => Num_le a b end.

(** A move is optimal for [p] when it is legal and no legal move leads to a
    position of a minimax value that [p] likes better. *)
Definition optimalMove (board : Board) (p : Player) (m : Z) : Prop :=
  m ∈ availableMoves board /\
  exists c, moveValue board p m = Ret c /\
    forall m' c', m' ∈ availableMoves board ->
      moveValue board p m' = Ret c' -> prefers p c c'.

(** *** The value of the game

    The value of a position, stated on the game alone: no evaluator and no
    list of moves of the program enters. A move is a mark in a cell that
    reads [null]; [X] looks for a large utility, [O] for a small one. *)

(** The board with the mark of [p] in cell [m]. *)
Definition place (board : Board) (m : Z) (p : Player) : Board :=
  <[Z.to_nat m := Some p]> board.

(** [secures t board z]: with [t] to move, [X] can play so that the game
    ends with a utility of at least [z], whatever [O] plays. *)
Inductive secures : Player -> Board -> Z -> Prop :=
| secures_end t board z :
    terminal board = true -> z <= utility board -> secures t board z
| secures_X board z m :
    terminal board = false -> cell board m = Some None ->
    secures O (place board m X) z ->
    secures X board z
| secures_O board z :
    terminal board = false ->
    (forall m, cell board m = Some None -> secures X (place board m O) z) ->
    secures O board z.

(** [concedes t board z]: with [t] to move, [O] can play so that the game
    ends with a utility of at most [z], whatever [X] plays. *)
Inductive concedes : Player -> Board -> Z -> Prop :=
| concedes_end t board z :
    terminal board = true -> utility board <= z -> concedes t board z
| concedes_O board z m :
    terminal board = false -> cell board m = Some None ->
    concedes X (place board m O) z ->
    concedes O board z
| concedes_X board z :
    terminal board = false ->
    (forall m, cell board m = Some None -> concedes O (place board m X) z) ->
    concedes X board z.

(** [z] is the value of the position: both sides can hold it. *)
Definition gameValue (t : Player) (board : Board) (z : Z) : Prop :=
  secures t board z /\ concedes t board z.

(** A cell is an optimal move of [p] when it reads [null] and marking it
    keeps the value of the position. *)
Definition optimalCell (board : Board) (p : Player) (m : Z) : Prop :=
  cell board m = Some None /\
  exists z, gameValue p board z /\ gameValue (other p) (place board m p) z.

(** *** Legal play and the outcome of a game *)

(** Boards of legal alternating play from the empty board: the player whose
    turn it is marks an empty cell of a board that is not terminal. *)
Inductive reachable : Board -> Prop :=
| reachable_init : reachable initialBoard
| reachable_move board m board' :
    reachable board ->
    terminal board = false ->
    applyMove board m (getCurrentPlayer board) = Ret board' ->
    reachable board'.

(** The invariant of alternating play on the counts of marks. *)
Definition turnInv (board : Board) : Prop :=
  countMarks X board = countMarks O board \/
  countMarks X board = S (countMarks O board).

(** The sign of a final utility, or of a minimax value, that is not a loss
    for the bot. *)
Definition okFor (botPlayer : Player) (z : Z) : Prop :=
  match botPlayer with X => 0 <= z | O => z <= 0 end.

(** [notLost botPlayer board]: under unpruned minimax the position, with the
    player of [getCurrentPlayer] to move, is not a loss for the bot. *)
Definition notLost (botPlayer : Player) (board : Board) : Prop :=
  exists r z,
    minimax board (getCurrentPlayer board) = Ret r /\ value r = Fin z /\
    okFor botPlayer z.

(** Every finished game from [board] ends without a loss of the bot. *)
Definition neverLoses (botPlayer : Player) (board : Board) : Prop :=
  forall final,
    rtc (step botPlayer) board final ->
    terminal final = true ->
    okFor botPlayer (utility final).

(** *** Lines *)

(** A line all three cells of which hold the mark of [p]. *)
Definition lineHeldBy (board : Board) (line : Z * Z * Z) (p : Player) : Prop :=
  let '(a, b, c) := line in
  cell board a = Some (Some p) /\
  cell board b = Some (Some p) /\
  cell board c = Some (Some p).

(** The enumeration order of the lines: rows, columns, diagonals. *)
Definition rows : list (Z * Z * Z) :=
  map (fun r => (3 * r, 3 * r + 1, 3 * r + 2)) [0; 1; 2].
Definition columns : list (Z * Z * Z) :=
  map (fun c => (c, c + 3, c + 6)) [0; 1; 2].
Definition diagonals : list (Z * Z * Z) := [(0, 4, 8); (2, 4, 6)].

(** *** Boards used below *)

(** A full board without a winner. *)
Definition drawnBoard : Board :=
  [Some X; Some O; Some X; Some X; Some O; Some O; Some O; Some X; Some X].

(** A reachable position with [O] to move that [O] has lost: [X] holds a
    corner and the centre, [O] an edge. *)
Definition lostBoard : Board :=
  [Some X; Some O; None; None; Some X; None; None; None; None].

Definition lostFinal : Board :=
  [Some X; Some O; Some O; None; Some X; None; None; None; Some X].

(** The board on which [X] has won on the left column. *)
Definition wonBoard : Board :=
  [Some X; Some O; Some O; Some X; Some X; Some O; Some X; None; None].

(** A game of the bot as [X], entered after four moves. *)
Definition midBoard : Board :=
  [Some X; Some O; None; None; Some O; None; None; None; Some X].

(* ===================================================================== *)
(** ** Auxiliary notions of the proofs *)
(* ===================================================================== *)

(** Number of [null] cells. *)
Definition emptyCount (board : Board) : nat := length (availableMoves board).

Definition childFin (callBF : Board -> outcome MoveResult)
    (board : Board) (p : Player) (m : Z) : Prop :=
  exists z, childValue callBF board p m = Ret (Fin z).

(** What a pruned evaluation [r] within the window [(alpha, beta)] tells
    about the unpruned value [m]: exact inside the window, and on the same
    side of the window outside of it. *)
Definition window_ok (alpha beta m r : Num) : Prop :=
  (Num_le m alpha -> Num_le r alpha) /\
  (Num_lt alpha m -> Num_lt m beta -> r = m) /\
  (Num_le beta m -> Num_le beta r).

(** A position on which the pruned evaluator [callAB] agrees, in the sense
    of [window_ok], with the unpruned evaluator [callBF]. *)
Definition nodeOk (callAB : Board -> Num -> Num -> outcome MoveResult)
    (callBF : Board -> outcome MoveResult) (board : Board) : Prop :=
  exists rbf z,
    callBF board = Ret rbf /\ value rbf = Fin z /\
    forall a b, Num_lt a b ->
      exists r, callAB board a b = Ret r /\ window_ok a b (Fin z) (value r).

Definition childOk (callAB : Board -> Num -> Num -> outcome MoveResult)
    (callBF : Board -> outcome MoveResult)
    (board : Board) (p : Player) (m : Z) : Prop :=
  exists nb, applyMove board m p = Ret nb /\ nodeOk callAB callBF nb.

(** Comparisons of finitely many numbers are comparisons of integers: the
    infinities are sent to [-K] and [K] for a bound [K] beyond the finite
    numbers at hand. *)
Definition emb (K : Z) (n : Num) : Z :=
  match n with NegInf => - K | Fin z => z | PosInf => K end.

Definition small (K : Z) (n : Num) : Prop :=
  match n with Fin z => - K < z < K | _ => 0 < K end.

(** The invariant of the states of the component. *)
Definition stateInv (s : BoardComponent.State) : Prop :=
  match BoardComponent.humanPlayer s with
  | None => BoardComponent.board s = initialBoard
  | Some h =>
      reachable (BoardComponent.board s) /\
      notLost (other h) (BoardComponent.board s)
  end.

(** [guaranteed botPlayer z0 board]: the minimax value of the position,
    with the player of [getCurrentPlayer] to move, is at least as good for
    the bot as [z0]. *)
Definition guaranteed (botPlayer : Player) (z0 : Z) (board : Board) : Prop :=
  exists r z,
    minimax board (getCurrentPlayer board) = Ret r /\ value r = Fin z /\
    match botPlayer with X => z0 <= z | O => z <= z0 end.

(** A run of the component: the events are fired in turn, each on a button
    that is rendered. *)
Fixpoint runEvents (s : BoardComponent.State) (es : list BoardComponent.Event)
    : option BoardComponent.State :=
  match es with
  | [] => Some s
  | e :: es' =>
      if BoardComponent.rendered s e
      then match BoardComponent.fire s e with
           | Ret s' => runEvents s' es'
           | _ => None
           end
      else None
  end.

(** A game that the human, playing [O], loses on the left column. *)
Definition wonGame : list BoardComponent.Event :=
  [BoardComponent.ChooseSide O; BoardComponent.BotTimer;
   BoardComponent.ClickSquare 1; BoardComponent.BotTimer;
   BoardComponent.ClickSquare 2; BoardComponent.BotTimer;
   BoardComponent.ClickSquare 5; BoardComponent.BotTimer].

(** The state once the human has chosen [O], and the state after the
    first move of the bot. *)
Definition sideChosenState : BoardComponent.State :=
  BoardComponent.mkState initialBoard (Some O) BoardComponent.light.

Definition botMovedState : BoardComponent.State :=
  BoardComponent.mkState
    [Some X; None; None; None; None; None; None; None; None]
    (Some O) BoardComponent.light.

Definition wonState : BoardComponent.State :=
  BoardComponent.mkState
    [Some X; Some O; Some O; Some X; Some X; Some O; Some X; None; None]
    (Some O) BoardComponent.light.

(* ===================================================================== *)
(** ** Facts about numbers *)
(* ===================================================================== *)

Ltac num_unfold :=
  unfold Num_le, Num_lt, Num_max, Num_min, Num_geb, Num_gtb in *.

Ltac num_cases :=
  repeat match goal with
  | x : Num |- _ => destruct x
  end.

Ltac ltb_cases :=
  repeat match goal with
  | H : context [Z.ltb ?x ?y] |- _ => destruct (Z.ltb_spec x y)
  | |- context [Z.ltb ?x ?y] => destruct (Z.ltb_spec x y)
  end.

Ltac num :=
  num_unfold; intros; subst; num_cases; simpl in *;
  ltb_cases; simpl in *;
  try discriminate; try congruence; try lia;
  try (f_equal; lia).

Lemma Num_le_refl a : Num_le a a.
Proof. num. Qed.

Lemma exists_bound (l : list Num) : exists K, Forall (small K) l.
Proof.
  induction l as [|n l [K HK]].
  - by exists 1.
  - exists (Z.max K (match n with Fin z => Z.abs z + 1 | _ => 1 end)).
    constructor.
    + destruct n; simpl; lia.
    + eapply Forall_impl; [exact HK|]. intros [] ; simpl; lia.
Qed.

Lemma Num_ltb_emb K a b :
  small K a -> small K b -> Num_ltb a b = (emb K a <? emb K b).
Proof. destruct a, b; simpl; intros; lia. Qed.

Lemma Num_eq_emb K a b :
  small K a -> small K b -> a = b <-> emb K a = emb K b.
Proof.
  destruct a, b; simpl; intros; split; intros; try discriminate; try lia;
    try congruence; try (f_equal; lia).
Qed.

Lemma emb_range K a : small K a -> - K <= emb K a <= K.
Proof. destruct a; simpl; lia. Qed.

Lemma emb_max K a b :
  small K a -> small K b -> emb K (Num_max a b) = Z.max (emb K a) (emb K b).
Proof.
  intros Ha Hb. unfold Num_max. rewrite (Num_ltb_emb K) by done.
  destruct (Z.ltb_spec (emb K a) (emb K b)); lia.
Qed.

Lemma emb_min K a b :
  small K a -> small K b -> emb K (Num_min a b) = Z.min (emb K a) (emb K b).
Proof.
  intros Ha Hb. unfold Num_min. rewrite (Num_ltb_emb K) by done.
  destruct (Z.ltb_spec (emb K b) (emb K a)); lia.
Qed.

Lemma small_max K a b : small K a -> small K b -> small K (Num_max a b).
Proof. unfold Num_max. by destruct (Num_ltb a b). Qed.

Lemma small_min K a b : small K a -> small K b -> small K (Num_min a b).
Proof. unfold Num_min. by destruct (Num_ltb b a). Qed.

Create HintDb small.
#[global] Hint Resolve small_max small_min : small.

Ltac num_small l :=
  let K := fresh "K" in
  let HK := fresh "HK" in
  destruct (exists_bound l) as [K HK];
  repeat match type of HK with
  | Forall _ (_ :: _) =>
      let H := fresh "Hsmall" in
      apply Forall_cons in HK as [H HK];
      pose proof (emb_range _ _ H)
  end;
  clear HK;
  unfold window_ok, Num_le, Num_lt, Num_geb, Num_gtb in *;
  repeat match goal with
  | H : context [Num_ltb ?a ?b] |- _ =>
      rewrite (Num_ltb_emb K a b) in H by auto with small
  | |- context [Num_ltb ?a ?b] =>
      rewrite (Num_ltb_emb K a b) by auto with small
  | H : context [@eq Num ?a ?b] |- _ =>
      rewrite (Num_eq_emb K a b) in H by auto with small
  | |- context [@eq Num ?a ?b] =>
      rewrite (Num_eq_emb K a b) by auto with small
  end;
  rewrite ?emb_max, ?emb_min in * by auto with small;
  simpl emb in *; simpl small in *.

Lemma window_step_max alpha0 beta v vbf rv z :
  Num_lt alpha0 beta ->
  Num_lt (Num_max alpha0 v) beta ->
  window_ok alpha0 beta vbf v ->
  window_ok (Num_max alpha0 v) beta (Fin z) rv ->
  window_ok alpha0 beta (Num_max vbf (Fin z)) (Num_max v rv).
Proof. intros. num_small [alpha0; beta; v; vbf; rv; Fin z]. lia. Qed.

Lemma window_step_min alpha beta0 v vbf rv z :
  Num_lt alpha beta0 ->
  Num_lt alpha (Num_min beta0 v) ->
  window_ok alpha beta0 vbf v ->
  window_ok alpha (Num_min beta0 v) (Fin z) rv ->
  window_ok alpha beta0 (Num_min vbf (Fin z)) (Num_min v rv).
Proof. intros. num_small [alpha; beta0; v; vbf; rv; Fin z]. lia. Qed.

Lemma window_cut_max alpha0 beta v vbf m :
  Num_lt alpha0 beta ->
  Num_geb (Num_max alpha0 v) beta = true ->
  window_ok alpha0 beta vbf v ->
  Num_le vbf m ->
  window_ok alpha0 beta m v.
Proof.
  intros ? Hcut%negb_true_iff ? ?.
  num_small [alpha0; beta; v; vbf; m]. lia.
Qed.

Lemma window_cut_min alpha beta0 v vbf m :
  Num_lt alpha beta0 ->
  Num_geb alpha (Num_min beta0 v) = true ->
  window_ok alpha beta0 vbf v ->
  Num_le m vbf ->
  window_ok alpha beta0 m v.
Proof.
  intros ? Hcut%negb_true_iff ? ?.
  num_small [alpha; beta0; v; vbf; m]. lia.
Qed.

Lemma Num_max_absorb alpha0 v rv :
  Num_max (Num_max alpha0 v) (Num_max v rv) = Num_max alpha0 (Num_max v rv).
Proof. num_small [alpha0; v; rv]. lia. Qed.

Lemma Num_min_absorb beta0 v rv :
  Num_min (Num_min beta0 v) (Num_min v rv) = Num_min beta0 (Num_min v rv).
Proof. num_small [beta0; v; rv]. lia. Qed.

Lemma Num_max_NegInf a : Num_max a NegInf = a.
Proof. by destruct a. Qed.

Lemma Num_min_PosInf a : Num_min a PosInf = a.
Proof. by destruct a. Qed.

Lemma root_step_max v rv z :
  v <> PosInf ->
  window_ok v PosInf (Fin z) rv ->
  Num_max v rv = Num_max v (Fin z) /\ Num_gtb rv v = Num_gtb (Fin z) v /\
  Num_max v (Fin z) <> PosInf.
Proof. intros. num_small [v; rv; Fin z; PosInf]. lia. Qed.

Lemma root_step_min v rv z :
  v <> NegInf ->
  window_ok NegInf v (Fin z) rv ->
  Num_min v rv = Num_min v (Fin z) /\ Num_ltb rv v = Num_ltb (Fin z) v /\
  Num_min v (Fin z) <> NegInf.
Proof. intros. num_small [v; rv; Fin z; NegInf]. lia. Qed.

Lemma Num_max_idem v w : Num_max v (Num_max v w) = Num_max v w.
Proof. num_small [v; w]. lia. Qed.

Lemma Num_min_idem v w : Num_min v (Num_min v w) = Num_min v w.
Proof. num_small [v; w]. lia. Qed.

Lemma Num_lt_PosInf v : v <> PosInf -> Num_lt v PosInf.
Proof. by destruct v. Qed.

Lemma Num_lt_NegInf v : v <> NegInf -> Num_lt NegInf v.
Proof. by destruct v. Qed.

(* ===================================================================== *)
(** ** Facts about the board model *)
(* ===================================================================== *)

Lemma cell_Some (board : Board) i sq :
  cell board i = Some sq <-> 0 <= i /\ board !! Z.to_nat i = Some sq.
Proof.
  unfold cell. split.
  - destruct (0 <=? i) eqn:Hi; simpl; [|discriminate].
    destruct (i <? Z.of_nat (length board)); [|discriminate].
    intros H. split; [lia | done].
  - intros [Hi H]. pose proof (lookup_lt_Some _ _ _ H).
    replace (0 <=? i) with true by lia.
    replace (i <? Z.of_nat (length board)) with true by lia.
    done.
Qed.

Lemma cell_range (board : Board) i sq :
  cell board i = Some sq -> 0 <= i < Z.of_nat (length board).
Proof.
  intros [Hi H]%cell_Some. apply lookup_lt_Some in H. lia.
Qed.

Lemma cell_outside (board : Board) i :
  i < 0 \/ Z.of_nat (length board) <= i -> cell board i = None.
Proof.
  intros H. destruct (cell board i) eqn:E; [|done].
  apply cell_range in E. lia.
Qed.

Lemma elem_of_availableFrom rest : forall idx m,
  m ∈ availableFrom idx rest <->
  idx <= m /\ rest !! Z.to_nat (m - idx) = Some None.
Proof.
  induction rest as [|sq rest IH]; intros idx m; simpl.
  - rewrite elem_of_nil. split; [done|]. by intros [_ ?].
  - assert (Hstep : m ∈ availableFrom (idx + 1) rest <->
              idx < m /\ (sq :: rest) !! Z.to_nat (m - idx) = Some None).
    { rewrite IH. split.
      - intros [Hm H]. split; [lia|].
        replace (Z.to_nat (m - idx)) with (S (Z.to_nat (m - (idx + 1)))) by lia.
        done.
      - intros [Hm H]. split; [lia|].
        replace (Z.to_nat (m - idx)) with (S (Z.to_nat (m - (idx + 1)))) in H by lia.
        done. }
    destruct (decide (sq = None)) as [->|Hsq].
    + rewrite elem_of_cons, Hstep. split.
      * intros [Heq|[Hm H]]; [|split; [lia|done]].
        subst m. split; [lia|]. by replace (Z.to_nat (idx - idx)) with 0%nat by lia.
      * intros [Hm H]. destruct (decide (m = idx)) as [->|Hne]; [by left|].
        right. split; [lia|done].
    + rewrite Hstep. split.
      * intros [Hm H]. split; [lia|done].
      * intros [Hm H]. split; [|done].
        destruct (decide (m = idx)) as [->|Hne]; [|lia].
        replace (Z.to_nat (idx - idx)) with 0%nat in H by lia.
        simpl in H. congruence.
Qed.

(** The available moves are exactly the indices whose cell is [null]. *)
Lemma elem_of_availableMoves (board : Board) m :
  m ∈ availableMoves board <-> cell board m = Some None.
Proof.
  unfold availableMoves. rewrite elem_of_availableFrom, cell_Some.
  by replace (m - 0) with m by lia.
Qed.

Lemma availableFrom_lower rest : forall idx,
  Forall (fun m => idx <= m) (availableFrom idx rest).
Proof.
  intros idx. apply Forall_forall. intros m Hm.
  apply elem_of_availableFrom in Hm. tauto.
Qed.

(** ... listed in strictly ascending order. *)
Lemma availableFrom_sorted rest : forall idx,
  StronglySorted Z.lt (availableFrom idx rest).
Proof.
  induction rest as [|sq rest IH]; intros idx; simpl; [constructor|].
  destruct (decide (sq = None)); [|apply IH].
  constructor; [apply IH|].
  eapply Forall_impl; [apply availableFrom_lower|].
  simpl. intros; lia.
Qed.

Lemma availableMoves_sorted board : StronglySorted Z.lt (availableMoves board).
Proof. apply availableFrom_sorted. Qed.

Lemma applyMove_available (board : Board) m p :
  m ∈ availableMoves board ->
  applyMove board m p = Ret (<[Z.to_nat m := Some p]> board).
Proof.
  intros H%elem_of_availableMoves. unfold applyMove.
  by rewrite decide_True.
Qed.

Lemma applyMove_Ret (board : Board) m p b' :
  applyMove board m p = Ret b' ->
  m ∈ availableMoves board /\ b' = <[Z.to_nat m := Some p]> board.
Proof.
  unfold applyMove. case_decide as H; [|discriminate].
  intros [= <-]. by rewrite elem_of_availableMoves.
Qed.

Lemma availableFrom_length_le rest : forall idx,
  (length (availableFrom idx rest) <= length rest)%nat.
Proof.
  induction rest as [|sq rest IH]; intros idx; simpl; [lia|].
  specialize (IH (idx + 1)). case_decide; simpl; lia.
Qed.

Lemma emptyCount_le board : (emptyCount board <= length board)%nat.
Proof. apply availableFrom_length_le. Qed.

Lemma availableFrom_insert rest : forall idx (i : nat) (p : Player),
  rest !! i = Some None ->
  S (length (availableFrom idx (<[i := Some p]> rest)))
  = length (availableFrom idx rest).
Proof.
  induction rest as [|sq rest IH]; intros idx i p H; [done|].
  destruct i as [|i]; simpl in *.
  - injection H as ->. by rewrite decide_True.
  - specialize (IH (idx + 1) i p H).
    case_decide; simpl; [by f_equal|done].
Qed.

Lemma emptyCount_applyMove board m p b' :
  applyMove board m p = Ret b' -> S (emptyCount b') = emptyCount board.
Proof.
  intros [Hm ->]%applyMove_Ret.
  apply elem_of_availableMoves, cell_Some in Hm as [_ Hm].
  by apply availableFrom_insert.
Qed.

Lemma availableFrom_nil rest idx :
  availableFrom idx rest = [] ->
  forallb (fun sq => bool_decide (sq <> None)) rest = true.
Proof.
  revert idx. induction rest as [|sq rest IH]; intros idx; simpl; [done|].
  case_decide as Hsq; [discriminate|].
  intros H. rewrite (IH _ H). by rewrite bool_decide_eq_true_2.
Qed.

Lemma forallb_availableFrom rest idx :
  forallb (fun sq => bool_decide (sq <> None)) rest = true ->
  availableFrom idx rest = [].
Proof.
  revert idx. induction rest as [|sq rest IH]; intros idx; simpl; [done|].
  intros [H1 H2]%andb_true_iff. apply bool_decide_eq_true_1 in H1.
  rewrite decide_False by done. by apply IH.
Qed.

(** A board that is not terminal has a move. *)
Lemma nonterminal_has_move board :
  terminal board = false -> availableMoves board <> [].
Proof.
  unfold terminal. intros H Hnil.
  apply orb_false_iff in H as [_ H].
  apply availableFrom_nil in Hnil. congruence.
Qed.

Lemma applyMove_length board m p b' :
  applyMove board m p = Ret b' -> length b' = length board.
Proof. intros [_ ->]%applyMove_Ret. apply length_insert. Qed.

Lemma cell_insert_eq (board : Board) m sq :
  0 <= m < Z.of_nat (length board) ->
  cell (<[Z.to_nat m := sq]> board) m = Some sq.
Proof.
  intros Hm. apply cell_Some. split; [lia|].
  apply list_lookup_insert_eq. lia.
Qed.

Lemma cell_insert_ne (board : Board) m i sq :
  0 <= m -> i <> m ->
  cell (<[Z.to_nat m := sq]> board) i = cell board i.
Proof.
  intros Hm Hne. unfold cell. rewrite length_insert.
  destruct ((0 <=? i) && (i <? Z.of_nat (length board))) eqn:Hi; [|done].
  apply andb_true_iff in Hi as [Hi _].
  apply list_lookup_insert_ne. lia.
Qed.

Lemma applyMove_Throw (board : Board) m p msg :
  applyMove board m p = Throw msg <->
  msg = "Invalid move" /\ cell board m <> Some None.
Proof.
  unfold applyMove. case_decide as H.
  - split; [done|]. by intros [_ ?].
  - split; [by intros [= <-]|]. by intros [-> _].
Qed.

Lemma countMarks_cons q sq board :
  countMarks q (sq :: board)
  = if decide (sq = Some q) then S (countMarks q board) else countMarks q board.
Proof. unfold countMarks. rewrite filter_cons. by case_decide. Qed.

Lemma countMarks_insert (board : Board) : forall (i : nat) p q,
  board !! i = Some None ->
  countMarks q (<[i := Some p]> board)
  = if decide (q = p) then S (countMarks q board) else countMarks q board.
Proof.
  induction board as [|sq board IH]; intros i p q H; [done|].
  destruct i as [|i]; simpl in *.
  - injection H as ->. rewrite !countMarks_cons.
    rewrite (decide_False (P := None = Some q)) by done.
    destruct (decide (q = p)) as [->|Hne].
    + by rewrite decide_True.
    + rewrite decide_False; [done|congruence].
  - rewrite !countMarks_cons, (IH i p q H).
    repeat case_decide; done.
Qed.

Lemma countMarks_applyMove board m p b' q :
  applyMove board m p = Ret b' ->
  countMarks q b'
  = if decide (q = p) then S (countMarks q board) else countMarks q board.
Proof.
  intros [Hm ->]%applyMove_Ret.
  apply elem_of_availableMoves, cell_Some in Hm as [_ Hm].
  by apply countMarks_insert.
Qed.

(** A move of the player to move keeps the invariant and passes the turn. *)
Lemma turn_passes board m b' :
  turnInv board ->
  applyMove board m (getCurrentPlayer board) = Ret b' ->
  turnInv b' /\ getCurrentPlayer b' = other (getCurrentPlayer board).
Proof.
  intros Hinv Hmove.
  pose proof (countMarks_applyMove _ _ _ _ X Hmove) as HX.
  pose proof (countMarks_applyMove _ _ _ _ O Hmove) as HO.
  unfold turnInv, getCurrentPlayer in *.
  destruct (Nat.eqb_spec (countMarks X board) (countMarks O board)) as [Heq|Hne];
    simpl in HX, HO; rewrite HX, HO.
  - split; [right; lia|].
    match goal with
    | |- context [Nat.eqb ?a ?b] => destruct (Nat.eqb_spec a b); [lia|done]
    end.
  - split; [left; lia|].
    match goal with
    | |- context [Nat.eqb ?a ?b] => destruct (Nat.eqb_spec a b); [done|lia]
    end.
Qed.

Lemma reachable_inv board :
  reachable board -> length board = 9%nat /\ turnInv board.
Proof.
  induction 1 as [|board m board' _ [IHlen IHinv] _ Hmove].
  - split; [done|]. by left.
  - split.
    + by rewrite (applyMove_length _ _ _ _ Hmove).
    + by apply (turn_passes board m).
Qed.

Lemma lineHeldBy_unique board line p q :
  lineHeldBy board line p -> lineHeldBy board line q -> p = q.
Proof.
  destruct line as [[a b] c]. intros [Hp _] [Hq _]. congruence.
Qed.

Lemma lineWon_spec board line :
  lineWon board line = true <-> exists p, lineHeldBy board line p.
Proof.
  destruct line as [[a b] c]. unfold lineWon, lineHeldBy. split.
  - destruct (cell board a) as [[p|]|] eqn:Ha; try discriminate.
    intros [Hb Hc]%andb_true_iff.
    apply bool_decide_eq_true_1 in Hb, Hc. by exists p.
  - intros (p & -> & Hb & Hc). rewrite Hb, Hc.
    by rewrite bool_decide_eq_true_2.
Qed.

Lemma lineWon_returns board line p :
  lineHeldBy board line p ->
  match cell board (fst (fst line)) with Some sq => sq | None => None end
  = Some p.
Proof. destruct line as [[a b] c]. simpl. by intros [-> _]. Qed.

Lemma scanLines_Some board lines p :
  scanLines board lines = Some p <->
  exists l1 line l2,
    lines = l1 ++ line :: l2 /\ lineHeldBy board line p /\
    forall l q, l ∈ l1 -> ~ lineHeldBy board l q.
Proof.
  induction lines as [|line rest IH]; simpl.
  - split; [done|]. intros (l1 & line & l2 & H & _). by destruct l1.
  - destruct (lineWon board line) eqn:Hwon.
    + apply lineWon_spec in Hwon as [q Hq].
      rewrite (lineWon_returns _ _ _ Hq). split.
      * intros [= ->]. exists [], line, rest. repeat split; [done|].
        intros l q' Hl. by apply elem_of_nil in Hl.
      * intros (l1 & line' & l2 & Hsplit & Hheld & Hbefore).
        destruct l1 as [|l l1]; simpl in Hsplit; injection Hsplit as <- ->.
        -- f_equal. by eapply lineHeldBy_unique.
        -- destruct (Hbefore line q (list_elem_of_here _ _) Hq).
    + rewrite IH. split.
      * intros (l1 & line' & l2 & -> & Hheld & Hbefore).
        exists (line :: l1), line', l2. repeat split; [done|].
        intros l q [->|Hl]%elem_of_cons Hq; [|by eapply Hbefore].
        assert (lineWon board line = true) by (apply lineWon_spec; eauto).
        congruence.
      * intros (l1 & line' & l2 & Hsplit & Hheld & Hbefore).
        destruct l1 as [|l l1]; simpl in Hsplit; injection Hsplit as <- ->.
        -- assert (lineWon board line = true) by (apply lineWon_spec; eauto).
           congruence.
        -- exists l1, line', l2. repeat split; [done|].
           intros l' q Hl'. apply Hbefore. by apply list_elem_of_further.
Qed.

Lemma scanLines_None board lines :
  scanLines board lines = None <->
  forall l q, l ∈ lines -> ~ lineHeldBy board l q.
Proof.
  induction lines as [|line rest IH]; simpl.
  - split; [|done]. intros _ l q Hl. by apply elem_of_nil in Hl.
  - destruct (lineWon board line) eqn:Hwon.
    + apply lineWon_spec in Hwon as [q Hq].
      rewrite (lineWon_returns _ _ _ Hq). split; [done|].
      intros H. destruct (H line q (list_elem_of_here _ _) Hq).
    + rewrite IH. split.
      * intros H l q [->|Hl]%elem_of_cons Hq; [|by eapply H].
        assert (lineWon board line = true) by (apply lineWon_spec; eauto).
        congruence.
      * intros H l q Hl. apply H. by apply list_elem_of_further.
Qed.

Lemma no_empty_cell board :
  forallb (fun sq => bool_decide (sq <> None)) board = true <->
  forall i, cell board i <> Some None.
Proof.
  split.
  - intros H i Hi. apply elem_of_availableMoves in Hi.
    unfold availableMoves in Hi. rewrite (forallb_availableFrom _ _ H) in Hi.
    by apply elem_of_nil in Hi.
  - intros H. apply (availableFrom_nil board 0).
    destruct (availableFrom 0 board) as [|m rest] eqn:E; [done|].
    destruct (H m). apply elem_of_availableMoves. unfold availableMoves.
    rewrite E. apply list_elem_of_here.
Qed.

(* ===================================================================== *)
(** ** The unpruned loops *)
(* ===================================================================== *)

Lemma childValue_Ret callBF board p m c :
  childValue callBF board p m = Ret c <->
  exists nb r, applyMove board m p = Ret nb /\ callBF nb = Ret r /\ value r = c.
Proof.
  unfold childValue. split.
  - destruct (applyMove board m p) as [nb| |]; simpl; try discriminate.
    destruct (callBF nb) as [r| |] eqn:Hr; simpl; try discriminate.
    intros [= <-]. by exists nb, r.
  - intros (nb & r & -> & Hr & <-). simpl. by rewrite Hr.
Qed.

Section BruteForceLoops.
Variable callBF : Board -> outcome MoveResult.
Variable board : Board.

(** The maximising loop returns the largest value seen, and the first
    move of the list that reaches it. *)
Lemma maxLoopBF_spec moves :
  Forall (childFin callBF board X) moves ->
  forall v best, exists v' best',
    maxLoopBF callBF board moves v best = Ret (mkResult v' best') /\
    Num_le v v' /\
    (forall m c, m ∈ moves -> childValue callBF board X m = Ret c -> Num_le c v') /\
    ((v' = v /\ best' = best) \/
     (exists l1 m l2, moves = l1 ++ m :: l2 /\ best' = Some m /\
        childValue callBF board X m = Ret v' /\ Num_lt v v' /\
        forall m' c, m' ∈ l1 -> childValue callBF board X m' = Ret c ->
                     Num_lt c v')).
Proof.
  induction 1 as [|m rest [z Hz] _ IH]; intros v best.
  - exists v, best. split; [done|]. split; [apply Num_le_refl|].
    split; [|by left]. intros m c Hm. by apply elem_of_nil in Hm.
  - pose proof Hz as (nb & r & Hnb & Hr & Hv)%childValue_Ret.
    simpl. rewrite Hnb. simpl. rewrite Hr. simpl. rewrite Hv.
    destruct (Num_gtb (Fin z) v) eqn:Himp.
    + destruct (IH (Fin z) (Some m)) as (v' & best' & -> & Hle & Hall & Hcase).
      exists v', best'. split; [done|].
      split; [clear -Hle Himp; num|].
      split.
      * intros m' c [->|Hm']%elem_of_cons Hc; [|by eapply Hall].
        rewrite Hz in Hc. by injection Hc as <-.
      * right. destruct Hcase as [[-> ->]|(l1 & m' & l2 & -> & -> & Hc & Hlt & Hbefore)].
        -- exists [], m, rest. repeat split; try done.
           intros m' c Hm'. by apply elem_of_nil in Hm'.
        -- exists (m :: l1), m', l2. repeat split; try done.
           ++ clear -Hlt Himp; num.
           ++ intros m'' c [->|Hm'']%elem_of_cons Hc'; [|by eapply Hbefore].
              rewrite Hz in Hc'. by injection Hc' as <-.
    + destruct (IH v best) as (v' & best' & -> & Hle & Hall & Hcase).
      exists v', best'. split; [done|]. split; [done|].
      split.
      * intros m' c [->|Hm']%elem_of_cons Hc; [|by eapply Hall].
        rewrite Hz in Hc. injection Hc as <-. clear -Hle Himp; num.
      * destruct Hcase as [[-> ->]|(l1 & m' & l2 & -> & -> & Hc & Hlt & Hbefore)];
          [by left|right].
        exists (m :: l1), m', l2. repeat split; try done.
        intros m'' c [->|Hm'']%elem_of_cons Hc'; [|by eapply Hbefore].
        rewrite Hz in Hc'. injection Hc' as <-. clear -Hlt Himp; num.
Qed.

(** The minimising loop returns the smallest value seen, and the first
    move of the list that reaches it. *)
Lemma minLoopBF_spec moves :
  Forall (childFin callBF board O) moves ->
  forall v best, exists v' best',
    minLoopBF callBF board moves v best = Ret (mkResult v' best') /\
    Num_le v' v /\
    (forall m c, m ∈ moves -> childValue callBF board O m = Ret c -> Num_le v' c) /\
    ((v' = v /\ best' = best) \/
     (exists l1 m l2, moves = l1 ++ m :: l2 /\ best' = Some m /\
        childValue callBF board O m = Ret v' /\ Num_lt v' v /\
        forall m' c, m' ∈ l1 -> childValue callBF board O m' = Ret c ->
                     Num_lt v' c)).
Proof.
  induction 1 as [|m rest [z Hz] _ IH]; intros v best.
  - exists v, best. split; [done|]. split; [apply Num_le_refl|].
    split; [|by left]. intros m c Hm. by apply elem_of_nil in Hm.
  - pose proof Hz as (nb & r & Hnb & Hr & Hv)%childValue_Ret.
    simpl. rewrite Hnb. simpl. rewrite Hr. simpl. rewrite Hv.
    destruct (Num_ltb (Fin z) v) eqn:Himp.
    + destruct (IH (Fin z) (Some m)) as (v' & best' & -> & Hle & Hall & Hcase).
      exists v', best'. split; [done|].
      split; [clear -Hle Himp; num|].
      split.
      * intros m' c [->|Hm']%elem_of_cons Hc; [|by eapply Hall].
        rewrite Hz in Hc. by injection Hc as <-.
      * right. destruct Hcase as [[-> ->]|(l1 & m' & l2 & -> & -> & Hc & Hlt & Hbefore)].
        -- exists [], m, rest. repeat split; try done.
           intros m' c Hm'. by apply elem_of_nil in Hm'.
        -- exists (m :: l1), m', l2. repeat split; try done.
           ++ clear -Hlt Himp; num.
           ++ intros m'' c [->|Hm'']%elem_of_cons Hc'; [|by eapply Hbefore].
              rewrite Hz in Hc'. by injection Hc' as <-.
    + destruct (IH v best) as (v' & best' & -> & Hle & Hall & Hcase).
      exists v', best'. split; [done|]. split; [done|].
      split.
      * intros m' c [->|Hm']%elem_of_cons Hc; [|by eapply Hall].
        rewrite Hz in Hc. injection Hc as <-. clear -Hle Himp; num.
      * destruct Hcase as [[-> ->]|(l1 & m' & l2 & -> & -> & Hc & Hlt & Hbefore)];
          [by left|right].
        exists (m :: l1), m', l2. repeat split; try done.
        intros m'' c [->|Hm'']%elem_of_cons Hc'; [|by eapply Hbefore].
        rewrite Hz in Hc'. injection Hc' as <-. clear -Hlt Himp; num.
Qed.
End BruteForceLoops.

(* ===================================================================== *)
(** ** Alpha-beta against unpruned minimax *)
(* ===================================================================== *)

Lemma childOk_childFin callAB callBF board p m :
  childOk callAB callBF board p m -> childFin callBF board p m.
Proof.
  intros (nb & Hnb & rbf & z & Hr & Hz & _). exists z.
  apply childValue_Ret. by exists nb, rbf.
Qed.

Lemma window_ok_exact a b m : window_ok a b m m.
Proof. unfold window_ok. by repeat split. Qed.

Section PrunedLoops.
Variable callAB : Board -> Num -> Num -> outcome MoveResult.
Variable callBF : Board -> outcome MoveResult.
Variable board : Board.

(** The maximising loop inside a window: [alpha] is always the larger of
    the incoming bound and [v]; the value returned, also after a cut-off,
    is related by [window_ok] to the value of the unpruned loop. *)
Lemma maxLoop_window alpha0 beta moves :
  Num_lt alpha0 beta ->
  Forall (childOk callAB callBF board X) moves ->
  forall v vbf best bestbf,
    Num_lt (Num_max alpha0 v) beta ->
    window_ok alpha0 beta vbf v ->
    exists r rbf,
      maxLoop callAB board beta moves v best (Num_max alpha0 v) = Ret r /\
      maxLoopBF callBF board moves vbf bestbf = Ret rbf /\
      window_ok alpha0 beta (value rbf) (value r).
Proof.
  intros Hab Hall.
  induction Hall as [|m rest Hm Hrest IH]; intros v vbf best bestbf Hlt Hinv.
  - simpl. by eexists _, _.
  - destruct Hm as (nb & Hnb & rbf & z & Hbf & Hz & Hwin).
    destruct (Hwin _ _ Hlt) as (r & Hr & Hok).
    simpl. rewrite Hnb. simpl. rewrite Hr, Hbf. simpl. rewrite Hz.
    change (if Num_gtb (value r) v then value r else v)
      with (Num_max v (value r)).
    change (if Num_gtb (Fin z) vbf then Fin z else vbf)
      with (Num_max vbf (Fin z)).
    rewrite Num_max_absorb.
    pose proof (window_step_max _ _ _ _ _ _ Hab Hlt Hinv Hok) as Hinv'.
    destruct (Num_geb (Num_max alpha0 (Num_max v (value r))) beta) eqn:Hcut.
    + apply Forall_impl with (Q := childFin callBF board X) in Hrest;
        [|apply childOk_childFin].
      destruct (maxLoopBF_spec callBF board rest Hrest (Num_max vbf (Fin z))
                  (if Num_gtb (Fin z) vbf then Some m else bestbf))
        as (v' & best' & -> & Hle & _).
      eexists _, _. split; [done|]. split; [done|]. simpl.
      by eapply window_cut_max.
    + apply IH; [|done].
      unfold Num_geb in Hcut. by apply negb_false_iff in Hcut.
Qed.

Lemma minLoop_window alpha beta0 moves :
  Num_lt alpha beta0 ->
  Forall (childOk callAB callBF board O) moves ->
  forall v vbf best bestbf,
    Num_lt alpha (Num_min beta0 v) ->
    window_ok alpha beta0 vbf v ->
    exists r rbf,
      minLoop callAB board alpha moves v best (Num_min beta0 v) = Ret r /\
      minLoopBF callBF board moves vbf bestbf = Ret rbf /\
      window_ok alpha beta0 (value rbf) (value r).
Proof.
  intros Hab Hall.
  induction Hall as [|m rest Hm Hrest IH]; intros v vbf best bestbf Hlt Hinv.
  - simpl. by eexists _, _.
  - destruct Hm as (nb & Hnb & rbf & z & Hbf & Hz & Hwin).
    destruct (Hwin _ _ Hlt) as (r & Hr & Hok).
    simpl. rewrite Hnb. simpl. rewrite Hr, Hbf. simpl. rewrite Hz.
    change (if Num_ltb (value r) v then value r else v)
      with (Num_min v (value r)).
    change (if Num_ltb (Fin z) vbf then Fin z else vbf)
      with (Num_min vbf (Fin z)).
    rewrite Num_min_absorb.
    pose proof (window_step_min _ _ _ _ _ _ Hab Hlt Hinv Hok) as Hinv'.
    destruct (Num_geb alpha (Num_min beta0 (Num_min v (value r)))) eqn:Hcut.
    + apply Forall_impl with (Q := childFin callBF board O) in Hrest;
        [|apply childOk_childFin].
      destruct (minLoopBF_spec callBF board rest Hrest (Num_min vbf (Fin z))
                  (if Num_ltb (Fin z) vbf then Some m else bestbf))
        as (v' & best' & -> & Hle & _).
      eexists _, _. split; [done|]. split; [done|]. simpl.
      by eapply window_cut_min.
    + apply IH; [|done].
      unfold Num_geb in Hcut. by apply negb_false_iff in Hcut.
Qed.
End PrunedLoops.

Section RootLoops.
Variable callAB : Board -> Num -> Num -> outcome MoveResult.
Variable callBF : Board -> outcome MoveResult.
Variable board : Board.

(** With [beta] infinite the maximising loop never cuts off, [alpha] is
    [v], and the loop takes the decisions of the unpruned loop. *)
Lemma maxLoop_root moves :
  Forall (childOk callAB callBF board X) moves ->
  forall v best, v <> PosInf ->
    maxLoop callAB board PosInf moves v best v
    = maxLoopBF callBF board moves v best.
Proof.
  induction 1 as [|m rest Hm _ IH]; intros v best Hv; [done|].
  destruct Hm as (nb & Hnb & rbf & z & Hbf & Hz & Hwin).
  destruct (Hwin v PosInf (Num_lt_PosInf v Hv)) as (r & Hr & Hok).
  destruct (root_step_max _ _ _ Hv Hok) as (Hmax & Himp & Hfin).
  simpl. rewrite Hnb. simpl. rewrite Hr, Hbf. simpl. rewrite Hz, Himp.
  change (if Num_gtb (Fin z) v then value r else v)
    with (if Num_ltb v (Fin z) then value r else v).
  change (if Num_gtb (Fin z) v then Fin z else v) with (Num_max v (Fin z)).
  replace (if Num_ltb v (Fin z) then value r else v) with (Num_max v (Fin z)).
  2:{ rewrite <- Hmax. unfold Num_max.
      unfold Num_gtb in Himp. by rewrite Himp. }
  rewrite Num_max_idem.
  replace (Num_geb (Num_max v (Fin z)) PosInf) with false.
  2:{ symmetry. apply negb_false_iff. by apply Num_lt_PosInf. }
  by apply IH.
Qed.

Lemma minLoop_root moves :
  Forall (childOk callAB callBF board O) moves ->
  forall v best, v <> NegInf ->
    minLoop callAB board NegInf moves v best v
    = minLoopBF callBF board moves v best.
Proof.
  induction 1 as [|m rest Hm _ IH]; intros v best Hv; [done|].
  destruct Hm as (nb & Hnb & rbf & z & Hbf & Hz & Hwin).
  destruct (Hwin NegInf v (Num_lt_NegInf v Hv)) as (r & Hr & Hok).
  destruct (root_step_min _ _ _ Hv Hok) as (Hmin & Himp & Hfin).
  simpl. rewrite Hnb. simpl. rewrite Hr, Hbf. simpl. rewrite Hz, Himp.
  change (if Num_ltb (Fin z) v then Fin z else v) with (Num_min v (Fin z)).
  replace (if Num_ltb (Fin z) v then value r else v) with (Num_min v (Fin z)).
  2:{ rewrite <- Hmin. unfold Num_min. by rewrite Himp. }
  rewrite Num_min_idem.
  replace (Num_geb NegInf (Num_min v (Fin z))) with false.
  2:{ symmetry. apply negb_false_iff. by apply Num_lt_NegInf. }
  by apply IH.
Qed.
End RootLoops.

(* ===================================================================== *)
(** ** The evaluators *)
(* ===================================================================== *)

Lemma maxLoopBF_finite callBF board moves best r :
  Forall (childFin callBF board X) moves -> moves <> [] ->
  maxLoopBF callBF board moves NegInf best = Ret r ->
  exists z, value r = Fin z.
Proof.
  intros Hall Hne Hr.
  destruct (maxLoopBF_spec callBF board moves Hall NegInf best)
    as (v' & best' & Hrun & _ & Hup & Hcase).
  rewrite Hr in Hrun. injection Hrun as ->. simpl.
  destruct Hcase as [[-> _]|(l1 & m & l2 & -> & _ & Hc & _)].
  - destruct moves as [|m rest]; [done|].
    apply Forall_cons in Hall as [[z Hz] _].
    specialize (Hup m (Fin z) (list_elem_of_here _ _) Hz). discriminate.
  - apply Forall_app in Hall as [_ [[z Hz] _]%Forall_cons].
    rewrite Hz in Hc. injection Hc as <-. by exists z.
Qed.

Lemma minLoopBF_finite callBF board moves best r :
  Forall (childFin callBF board O) moves -> moves <> [] ->
  minLoopBF callBF board moves PosInf best = Ret r ->
  exists z, value r = Fin z.
Proof.
  intros Hall Hne Hr.
  destruct (minLoopBF_spec callBF board moves Hall PosInf best)
    as (v' & best' & Hrun & _ & Hup & Hcase).
  rewrite Hr in Hrun. injection Hrun as ->. simpl.
  destruct Hcase as [[-> _]|(l1 & m & l2 & -> & _ & Hc & _)].
  - destruct moves as [|m rest]; [done|].
    apply Forall_cons in Hall as [[z Hz] _].
    specialize (Hup m (Fin z) (list_elem_of_here _ _) Hz). discriminate.
  - apply Forall_app in Hall as [_ [[z Hz] _]%Forall_cons].
    rewrite Hz in Hc. injection Hc as <-. by exists z.
Qed.

(** With fuel beyond the number of empty cells both pairs of evaluators
    return, the unpruned value is finite, and the pruned value is related
    to it by [window_ok] in every window. *)
Lemma search_ok fuel : forall board,
  (emptyCount board < fuel)%nat ->
  nodeOk (maxValueAB fuel) (maxValue fuel) board /\
  nodeOk (minValueAB fuel) (minValue fuel) board.
Proof.
  induction fuel as [|fuel IH]; intros board Hfuel; [lia|].
  unfold nodeOk. simpl.
  destruct (terminal board) eqn:Hterm.
  - split; eexists _, _; (split; [done|]); (split; [done|]);
      intros a b _; eexists; (split; [done|]); apply window_ok_exact.
  - assert (Hkids : forall p,
      Forall (fun m => exists nb, applyMove board m p = Ret nb /\
                (emptyCount nb < fuel)%nat) (availableMoves board)).
    { intros p. apply Forall_forall. intros m Hm.
      eexists. split; [by apply applyMove_available|].
      pose proof (emptyCount_applyMove board m p _
                    (applyMove_available board m p Hm)). lia. }
    pose proof (nonterminal_has_move board Hterm) as Hne.
    split.
    + assert (Hok : Forall (childOk (minValueAB fuel) (minValue fuel) board X)
                      (availableMoves board)).
      { eapply Forall_impl; [apply (Hkids X)|].
        intros m (nb & Hnb & Hlt). exists nb. split; [done|].
        by apply IH. }
      destruct (maxLoop_window _ _ board NegInf PosInf _ eq_refl Hok
                  NegInf NegInf None None eq_refl (window_ok_exact _ _ _))
        as (_ & rbf & _ & Hbf & _).
      destruct (maxLoopBF_finite _ _ _ _ _
                  (Forall_impl _ _ _ Hok (childOk_childFin _ _ _ _)) Hne Hbf)
        as [z Hz].
      exists rbf, z. split; [done|]. split; [done|].
      intros a b Hab.
      destruct (maxLoop_window _ _ board a b _ Hab Hok
                  NegInf NegInf None None) as (r & rbf' & Hr & Hbf' & Hwin).
      { by rewrite Num_max_NegInf. }
      { apply window_ok_exact. }
      rewrite Num_max_NegInf in Hr. rewrite Hbf in Hbf'. injection Hbf' as <-.
      exists r. split; [done|]. by rewrite <- Hz.
    + assert (Hok : Forall (childOk (maxValueAB fuel) (maxValue fuel) board O)
                      (availableMoves board)).
      { eapply Forall_impl; [apply (Hkids O)|].
        intros m (nb & Hnb & Hlt). exists nb. split; [done|].
        by apply IH. }
      destruct (minLoop_window _ _ board NegInf PosInf _ eq_refl Hok
                  PosInf PosInf None None eq_refl (window_ok_exact _ _ _))
        as (_ & rbf & _ & Hbf & _).
      destruct (minLoopBF_finite _ _ _ _ _
                  (Forall_impl _ _ _ Hok (childOk_childFin _ _ _ _)) Hne Hbf)
        as [z Hz].
      exists rbf, z. split; [done|]. split; [done|].
      intros a b Hab.
      destruct (minLoop_window _ _ board a b _ Hab Hok
                  PosInf PosInf None None) as (r & rbf' & Hr & Hbf' & Hwin).
      { by rewrite Num_min_PosInf. }
      { apply window_ok_exact. }
      rewrite Num_min_PosInf in Hr. rewrite Hbf in Hbf'. injection Hbf' as <-.
      exists r. split; [done|]. by rewrite <- Hz.
Qed.

(** At the root window the pruned evaluators return what the unpruned
    evaluators return: the same value and the same move. *)
Lemma search_root fuel board :
  (emptyCount board < fuel)%nat ->
  maxValueAB fuel board NegInf PosInf = maxValue fuel board /\
  minValueAB fuel board NegInf PosInf = minValue fuel board.
Proof.
  destruct fuel as [|fuel]; [lia|]. intros Hfuel. simpl.
  destruct (terminal board) eqn:Hterm; [done|].
  assert (Hkids : forall p m, m ∈ availableMoves board ->
            exists nb, applyMove board m p = Ret nb /\
                       (emptyCount nb < fuel)%nat).
  { intros p m Hm. eexists. split; [by apply applyMove_available|].
    pose proof (emptyCount_applyMove board m p _
                  (applyMove_available board m p Hm)). lia. }
  split.
  - apply maxLoop_root; [|done].
    apply Forall_forall. intros m Hm.
    destruct (Hkids X m Hm) as (nb & Hnb & Hlt).
    exists nb. split; [done|]. by apply search_ok.
  - apply minLoop_root; [|done].
    apply Forall_forall. intros m Hm.
    destruct (Hkids O m Hm) as (nb & Hnb & Hlt).
    exists nb. split; [done|]. by apply search_ok.
Qed.

Lemma searchFuel_enough board : (emptyCount board < searchFuel board)%nat.
Proof. unfold searchFuel. pose proof (emptyCount_le board). lia. Qed.

Lemma maxLoopBF_ext call1 call2 board moves :
  (forall m nb, m ∈ moves -> applyMove board m X = Ret nb -> call1 nb = call2 nb) ->
  forall v best,
    maxLoopBF call1 board moves v best = maxLoopBF call2 board moves v best.
Proof.
  induction moves as [|m rest IH]; intros Hext v best; [done|].
  simpl. destruct (applyMove board m X) as [nb| |] eqn:Hnb; simpl; try done.
  rewrite <- (Hext m nb (list_elem_of_here _ _) Hnb).
  destruct (call1 nb) as [r| |]; simpl; try done.
  apply IH. intros m' nb' Hm'. apply Hext. by apply list_elem_of_further.
Qed.

Lemma minLoopBF_ext call1 call2 board moves :
  (forall m nb, m ∈ moves -> applyMove board m O = Ret nb -> call1 nb = call2 nb) ->
  forall v best,
    minLoopBF call1 board moves v best = minLoopBF call2 board moves v best.
Proof.
  induction moves as [|m rest IH]; intros Hext v best; [done|].
  simpl. destruct (applyMove board m O) as [nb| |] eqn:Hnb; simpl; try done.
  rewrite <- (Hext m nb (list_elem_of_here _ _) Hnb).
  destruct (call1 nb) as [r| |]; simpl; try done.
  apply IH. intros m' nb' Hm'. apply Hext. by apply list_elem_of_further.
Qed.

(** Fuel beyond the number of empty cells is never used. *)
Lemma value_fuel f1 : forall f2 board,
  (emptyCount board < f1)%nat -> (emptyCount board < f2)%nat ->
  maxValue f1 board = maxValue f2 board /\
  minValue f1 board = minValue f2 board.
Proof.
  induction f1 as [|f1 IH]; intros f2 board H1 H2; [lia|].
  destruct f2 as [|f2]; [lia|]. simpl.
  destruct (terminal board); [done|].
  assert (Hkid : forall p m nb, applyMove board m p = Ret nb ->
            (emptyCount nb < f1)%nat /\ (emptyCount nb < f2)%nat).
  { intros p m nb Hnb. apply emptyCount_applyMove in Hnb. lia. }
  split.
  - apply maxLoopBF_ext. intros m nb _ Hnb.
    destruct (Hkid _ _ _ Hnb). by apply IH.
  - apply minLoopBF_ext. intros m nb _ Hnb.
    destruct (Hkid _ _ _ Hnb). by apply IH.
Qed.

(** *** The entry points *)

Lemma minimax_searchAB board p : searchAB board p = minimax board p.
Proof.
  unfold searchAB, minimax.
  destruct (search_root _ _ (searchFuel_enough board)) as [-> ->]. done.
Qed.

Lemma minimaxAB_minimax board p :
  minimaxAB board p = (r ← minimax board p; Ret (move r)).
Proof.
  unfold minimaxAB, minimax.
  destruct (search_root _ _ (searchFuel_enough board)) as [-> ->].
  by case_decide.
Qed.

Lemma minimax_terminal board p :
  terminal board = true ->
  minimax board p = Ret (mkResult (Fin (utility board)) None).
Proof.
  intros H. unfold minimax, searchFuel. simpl. rewrite H. by case_decide.
Qed.

Lemma childValue_moveValue board p m :
  childValue (fun nb => if decide (other p = X)
                        then maxValue (length board) nb
                        else minValue (length board) nb) board p m
  = moveValue board p m.
Proof.
  unfold moveValue, childValue.
  destruct (applyMove board m p) as [nb| |] eqn:Hnb; simpl; try done.
  unfold minimax, searchFuel.
  pose proof (applyMove_length _ _ _ _ Hnb) as Hlen.
  pose proof (emptyCount_applyMove _ _ _ _ Hnb) as Hcnt.
  pose proof (emptyCount_le board).
  destruct (value_fuel (length board) (S (length nb)) nb) as [-> ->];
    [lia|lia|]. done.
Qed.

(** On a board that is not terminal, unpruned minimax returns a finite value
    and a legal move that reaches it; every legal move has a finite value
    that the mover likes no better; and the returned move is the least
    index among the moves of that value. *)
Lemma minimax_spec board p :
  terminal board = false ->
  exists z m,
    minimax board p = Ret (mkResult (Fin z) (Some m)) /\
    m ∈ availableMoves board /\
    moveValue board p m = Ret (Fin z) /\
    (forall m', m' ∈ availableMoves board ->
       exists z', moveValue board p m' = Ret (Fin z') /\
                  prefers p (Fin z) (Fin z')) /\
    (forall m', m' ∈ availableMoves board ->
       moveValue board p m' = Ret (Fin z) -> m <= m').
Proof.
  intros Hterm.
  pose proof (nonterminal_has_move board Hterm) as Hne.
  pose proof (availableMoves_sorted board) as Hsorted.
  assert (Hfin : forall q, Forall (childFin
            (fun nb => if decide (other q = X)
                       then maxValue (length board) nb
                       else minValue (length board) nb) board q)
            (availableMoves board)).
  { intros q. apply Forall_forall. intros m Hm.
    pose proof (applyMove_available board m q Hm) as Hnb.
    pose proof (emptyCount_applyMove _ _ _ _ Hnb) as Hcnt.
    pose proof (emptyCount_le board).
    destruct (search_ok (length board) (<[Z.to_nat m := Some q]> board))
      as [(r1 & z1 & H1 & Hz1 & _) (r2 & z2 & H2 & Hz2 & _)]; [lia|].
    destruct q; simpl.
    - exists z2. apply childValue_Ret. by eexists _, _.
    - exists z1. apply childValue_Ret. by eexists _, _. }
  unfold minimax, searchFuel. simpl. rewrite Hterm.
  destruct p; simpl.
  - specialize (Hfin X). simpl in Hfin.
    destruct (maxLoopBF_spec _ _ _ Hfin NegInf None)
      as (v' & best' & Hrun & _ & Hup & Hcase).
    destruct Hcase as [[-> _]|(l1 & m & l2 & Hsplit & -> & Hc & _ & Hbefore)].
    { destruct (availableMoves board) as [|m rest]; [done|].
      apply Forall_cons in Hfin as [[z Hz] _].
      specialize (Hup m (Fin z) (list_elem_of_here _ _) Hz). discriminate. }
    assert (Hm : m ∈ availableMoves board).
    { rewrite Hsplit. apply elem_of_app. right. apply list_elem_of_here. }
    pose proof Hfin as Hfin'.
    rewrite Forall_forall in Hfin'. destruct (Hfin' m Hm) as [z Hz].
    rewrite Hz in Hc. injection Hc as <-.
    exists z, m. split; [done|]. split; [done|].
    split; [by rewrite <- (childValue_moveValue board X)|].
    split.
    + intros m' Hm'. destruct (Hfin' m' Hm') as [z' Hz'].
      exists z'. split; [by rewrite <- (childValue_moveValue board X)|].
      simpl. by eapply Hup.
    + intros m' Hm' Hv. rewrite <- (childValue_moveValue board X) in Hv.
      simpl in Hv. rewrite Hsplit in Hm', Hsorted.
      apply elem_of_app in Hm' as [Hm'|Hm'].
      { specialize (Hbefore m' _ Hm' Hv). clear -Hbefore. num. }
      apply elem_of_cons in Hm' as [->|Hm']; [lia|].
      apply StronglySorted_app_1_r in Hsorted.
      apply StronglySorted_inv in Hsorted as [_ Hall].
      rewrite Forall_forall in Hall. specialize (Hall m' Hm'). lia.
  - specialize (Hfin O). simpl in Hfin.
    destruct (minLoopBF_spec _ _ _ Hfin PosInf None)
      as (v' & best' & Hrun & _ & Hup & Hcase).
    destruct Hcase as [[-> _]|(l1 & m & l2 & Hsplit & -> & Hc & _ & Hbefore)].
    { destruct (availableMoves board) as [|m rest]; [done|].
      apply Forall_cons in Hfin as [[z Hz] _].
      specialize (Hup m (Fin z) (list_elem_of_here _ _) Hz). discriminate. }
    assert (Hm : m ∈ availableMoves board).
    { rewrite Hsplit. apply elem_of_app. right. apply list_elem_of_here. }
    pose proof Hfin as Hfin'.
    rewrite Forall_forall in Hfin'. destruct (Hfin' m Hm) as [z Hz].
    rewrite Hz in Hc. injection Hc as <-.
    exists z, m. split; [done|]. split; [done|].
    split; [by rewrite <- (childValue_moveValue board O)|].
    split.
    + intros m' Hm'. destruct (Hfin' m' Hm') as [z' Hz'].
      exists z'. split; [by rewrite <- (childValue_moveValue board O)|].
      simpl. by eapply Hup.
    + intros m' Hm' Hv. rewrite <- (childValue_moveValue board O) in Hv.
      simpl in Hv. rewrite Hsplit in Hm', Hsorted.
      apply elem_of_app in Hm' as [Hm'|Hm'].
      { specialize (Hbefore m' _ Hm' Hv). clear -Hbefore. num. }
      apply elem_of_cons in Hm' as [->|Hm']; [lia|].
      apply StronglySorted_app_1_r in Hsorted.
      apply StronglySorted_inv in Hsorted as [_ Hall].
      rewrite Forall_forall in Hall. specialize (Hall m' Hm'). lia.
Qed.

Lemma minimaxAB_optimal board p :
  terminal board = false ->
  exists m, minimaxAB board p = Ret (Some m) /\
    optimalMove board p m /\
    forall m', optimalMove board p m' -> m <= m'.
Proof.
  intros Hterm.
  destruct (minimax_spec board p Hterm)
    as (z & m & Hmm & Hm & Hval & Hall & Hleast).
  exists m. split; [by rewrite minimaxAB_minimax, Hmm|].
  split.
  - split; [done|]. exists (Fin z). split; [done|].
    intros m' c' Hm' Hc'. destruct (Hall m' Hm') as (z' & Hz' & Hpref).
    rewrite Hz' in Hc'. by injection Hc' as <-.
  - intros m' (Hm' & c & Hc & Hbest). apply Hleast; [done|].
    destruct (Hall m' Hm') as (z' & Hz' & Hpref).
    rewrite Hz' in Hc. injection Hc as <-.
    specialize (Hbest m (Fin z) Hm Hval).
    rewrite Hz'. do 2 f_equal.
    clear -Hpref Hbest. destruct p; simpl in *; num.
Qed.

(** *** The bot never gives away a position *)

Lemma moveValue_Ret board p m c :
  moveValue board p m = Ret c <->
  exists nb r, applyMove board m p = Ret nb /\
               minimax nb (other p) = Ret r /\ value r = c.
Proof. apply childValue_Ret. Qed.

Lemma step_notLost botPlayer board board' :
  turnInv board -> notLost botPlayer board ->
  step botPlayer board board' ->
  turnInv board' /\ notLost botPlayer board'.
Proof.
  intros Hinv (r & z & Hr & Hz & Hok) Hstep.
  destruct Hstep as [m b' Hterm Hturn Hbest Hmove|i b' Hterm Hturn Hmove].
  - rewrite <- Hturn in Hmove.
    destruct (turn_passes _ _ _ Hinv Hmove) as [Hinv' Hturn'].
    split; [done|]. rewrite Hturn in *.
    destruct (minimax_spec board botPlayer Hterm)
      as (z0 & m0 & Hmm & _ & Hval & _).
    rewrite Hmm in Hr. injection Hr as <-. simpl in Hz. injection Hz as ->.
    rewrite minimaxAB_minimax, Hmm in Hbest. simpl in Hbest.
    injection Hbest as ->.
    apply moveValue_Ret in Hval as (nb & r' & Hnb & Hr' & Hv').
    rewrite Hmove in Hnb. injection Hnb as <-.
    exists r', z. rewrite Hturn'. done.
  - rewrite <- Hturn in Hmove.
    destruct (turn_passes _ _ _ Hinv Hmove) as [Hinv' Hturn'].
    split; [done|]. rewrite Hturn in *.
    destruct (minimax_spec board (other botPlayer) Hterm)
      as (z0 & m0 & Hmm & _ & _ & Hall & _).
    rewrite Hmm in Hr. injection Hr as <-. simpl in Hz. injection Hz as ->.
    apply applyMove_Ret in Hmove as Hi. destruct Hi as [Hi _].
    destruct (Hall i Hi) as (z' & Hval & Hpref).
    apply moveValue_Ret in Hval as (nb & r' & Hnb & Hr' & Hv').
    rewrite Hmove in Hnb. injection Hnb as <-.
    exists r', z'. rewrite Hturn'. split; [done|]. split; [done|].
    clear -Hpref Hok. destruct botPlayer; simpl in *; num.
Qed.

Lemma notLost_terminal botPlayer board :
  notLost botPlayer board -> terminal board = true ->
  okFor botPlayer (utility board).
Proof.
  intros (r & z & Hr & Hz & Hok) Hterm.
  rewrite (minimax_terminal _ _ Hterm) in Hr. injection Hr as <-.
  simpl in Hz. by injection Hz as ->.
Qed.

(** From a position of alternating play that is not lost, the bot never
    loses, whatever the human plays. *)
Lemma notLost_neverLoses botPlayer board :
  turnInv board -> notLost botPlayer board -> neverLoses botPlayer board.
Proof.
  intros Hinv Hsafe final Hplay. revert Hinv Hsafe.
  induction Hplay as [b|b b' final Hstep _ IH]; intros Hinv Hsafe Hterm.
  - by apply notLost_terminal.
  - destruct (step_notLost _ _ _ Hinv Hsafe Hstep). by apply IH.
Qed.

(** The empty board is lost for neither side: its minimax value is 0. *)
Lemma initialBoard_notLost botPlayer : notLost botPlayer initialBoard.
Proof.
  exists (mkResult (Fin 0) (Some 0)), 0.
  split; [|by destruct botPlayer].
  rewrite <- minimax_searchAB. by vm_compute.
Qed.

(** From the empty board the bot never loses, whichever side it plays. *)
Corollary engine_never_loses_from_start botPlayer :
  neverLoses botPlayer initialBoard.
Proof.
  apply notLost_neverLoses; [by left|apply initialBoard_notLost].
Qed.

(* ===================================================================== *)
(** ** Properties of the board model *)
(* ===================================================================== *)

(** C8. [calculateWinner] scans the eight lines in the fixed order rows,
    columns, diagonals. On every board, also one on which several lines are
    held, it returns the mark of the first line of that order that is held
    by one mark, and [null] exactly when no line is held. *)
Theorem calculateWinner_first_line :
  winningLines = rows ++ columns ++ diagonals /\
  forall board : Board,
    (forall p, calculateWinner board = Some p <->
       exists l1 line l2,
         winningLines = l1 ++ line :: l2 /\ lineHeldBy board line p /\
         forall l q, l ∈ l1 -> ~ lineHeldBy board l q) /\
    (calculateWinner board = None <->
       forall l q, l ∈ winningLines -> ~ lineHeldBy board l q).
Proof.
  split; [done|]. intros board. split.
  - intros p. apply scanLines_Some.
  - apply scanLines_None.
Qed.

(** Two boards no play can produce: [O] holds the top row and [X] the middle
    row; [X] holds the left column and [O] the middle column. The line
    earlier in the order decides. *)
Example calculateWinner_two_rows :
  calculateWinner [Some O; Some O; Some O; Some X; Some X; Some X; None; None; None]
  = Some O.
Proof. reflexivity. Qed.

Example calculateWinner_two_columns :
  calculateWinner [Some X; Some O; None; Some X; Some O; None; Some X; Some O; None]
  = Some X.
Proof. reflexivity. Qed.

(** C7. [terminal] is true exactly when [calculateWinner] returns a mark or
    no cell of the board is [null]; this holds on every board, hence on
    those of alternating play. *)
Theorem terminal_iff (board : Board) :
  terminal board = true <->
  (exists p, calculateWinner board = Some p) \/
  (forall i, cell board i <> Some None).
Proof.
  unfold terminal. rewrite orb_true_iff, bool_decide_eq_true, no_empty_cell.
  split; (intros [H|H]; [left|by right]).
  - destruct (calculateWinner board) as [p|]; [by exists p|done].
  - destruct H as [p ->]. done.
Qed.

(** C5. On a board of nine cells and for an index in [0,8], [applyMove]
    throws the invalid-move error exactly when the cell is occupied; when
    the cell is empty it returns a board whose cell [m] holds the mark of
    the player. *)
Theorem applyMove_throws_iff_occupied (board : Board) (m : Z) (p : Player) :
  length board = 9%nat -> 0 <= m <= 8 ->
  (applyMove board m p = Throw "Invalid move" <->
     exists q, cell board m = Some (Some q)) /\
  (cell board m = Some None ->
     exists b', applyMove board m p = Ret b' /\ cell b' m = Some (Some p)).
Proof.
  intros Hlen Hm. split.
  - rewrite applyMove_Throw. split.
    + intros [_ Hocc].
      destruct (cell board m) as [[q|]|] eqn:Hc; [by exists q|done|].
      exfalso. unfold cell in Hc.
      replace (0 <=? m) with true in Hc by lia.
      replace (m <? Z.of_nat (length board)) with true in Hc by lia.
      simpl in Hc. apply lookup_ge_None in Hc. lia.
    + intros [q ->]. done.
  - intros Hempty. exists (<[Z.to_nat m := Some p]> board). split.
    + unfold applyMove. by rewrite decide_True.
    + apply cell_insert_eq. lia.
Qed.

(** C10. On a board of nine cells an index outside [0,8] reads [undefined],
    which is not [null]: [applyMove] throws the invalid-move error. Hence a
    call that returns had an index in [0,8] and returns nine cells. *)
Theorem applyMove_out_of_range (board : Board) (m : Z) (p : Player) :
  length board = 9%nat ->
  (m < 0 \/ 8 < m -> applyMove board m p = Throw "Invalid move") /\
  (forall b', applyMove board m p = Ret b' ->
     0 <= m <= 8 /\ length b' = 9%nat).
Proof.
  intros Hlen. split.
  - intros Hm. apply applyMove_Throw. split; [done|].
    rewrite cell_outside; [done|lia].
  - intros b' Hret. pose proof (applyMove_length _ _ _ _ Hret) as Hlen'.
    apply applyMove_Ret in Hret as [Hm%elem_of_availableMoves%cell_range _].
    lia.
Qed.

(** C9. [applyMove] on an empty cell returns a new array: its reference was
    not in use, it holds the board computed by [applyMove] on values, which
    has the same length, the mark of the player in cell [m] and every other
    cell as in the input; the input array, and every other array of the
    store, is left as it was. *)
Theorem applyMove_frame (s : gmap loc Board) (board : loc) (b : Board)
    (m : Z) (p : Player) :
  s !! board = Some b ->
  cell b m = Some None ->
  exists s' newBoard b',
    applyMoveRef s board m p = (s', Ret newBoard) /\
    applyMove b m p = Ret b' /\
    s !! newBoard = None /\
    s' !! newBoard = Some b' /\
    s' !! board = Some b /\
    (forall l, l <> newBoard -> s' !! l = s !! l) /\
    length b' = length b /\
    cell b' m = Some (Some p) /\
    (forall i, i <> m -> cell b' i = cell b i).
Proof.
  intros Hb Hempty.
  pose proof (cell_range _ _ _ Hempty) as Hm.
  assert (Hfresh : s !! fresh (dom s) = None).
  { apply not_elem_of_dom. apply is_fresh. }
  exists (<[fresh (dom s) := <[Z.to_nat m := Some p]> b]> s),
         (fresh (dom s)), (<[Z.to_nat m := Some p]> b).
  assert (Htot : s !!! board = b) by (by rewrite lookup_total_alt, Hb).
  split.
  { unfold applyMoveRef, slice, storeCell. rewrite Htot.
    rewrite decide_True by done.
    by rewrite lookup_total_insert_eq, insert_insert_eq. }
  split; [unfold applyMove; by rewrite decide_True|].
  split; [done|].
  split; [apply lookup_insert_eq|].
  split.
  { rewrite lookup_insert_ne; [done|]. intros Heq. congruence. }
  split; [intros l Hl; by rewrite lookup_insert_ne|].
  split; [apply length_insert|].
  split; [by apply cell_insert_eq|].
  intros i Hi. apply cell_insert_ne; [lia|done].
Qed.

(** On an occupied or missing cell the store is left as it was. *)
Lemma applyMoveRef_throw (s : gmap loc Board) (board : loc) (m : Z) (p : Player) :
  cell (s !!! board) m <> Some None ->
  applyMoveRef s board m p = (s, Throw "Invalid move").
Proof. intros H. unfold applyMoveRef. by rewrite decide_False. Qed.

(* ===================================================================== *)
(** ** Properties of the search engine *)
(* ===================================================================== *)

(** C2. Pruning changes nothing at the root: on every board, reachable or
    not, and for either player, the pruned evaluator called with the window
    (-Infinity, +Infinity) returns, and returns the value and the move of
    unpruned minimax with the same move order and the same strict
    improvement rule. *)
Theorem alphabeta_equals_minimax (board : Board) (p : Player) :
  exists r, minimax board p = Ret r /\ searchAB board p = Ret r.
Proof.
  rewrite minimax_searchAB.
  destruct (search_ok _ board (searchFuel_enough board))
    as [(r1 & _ & H1 & _) (r2 & _ & H2 & _)].
  unfold minimax. destruct p; simpl; eauto.
Qed.

(** C3. On a reachable board that is not terminal, [minimaxAB] returns, for
    either player, a move of [availableMoves]: the index, in [0,8], of a
    cell that is [null]. *)
Theorem minimaxAB_returns_available_move (board : Board) (p : Player) :
  reachable board -> terminal board = false ->
  exists m, minimaxAB board p = Ret (Some m) /\
    m ∈ availableMoves board /\ cell board m = Some None /\ 0 <= m <= 8.
Proof.
  intros [Hlen _]%reachable_inv Hterm.
  destruct (minimaxAB_optimal board p Hterm) as (m & Hret & [Hm _] & _).
  exists m. split; [done|]. split; [done|].
  apply elem_of_availableMoves in Hm as Hcell. split; [done|].
  apply cell_range in Hcell. lia.
Qed.

Lemma secures_weaken t board z : secures t board z ->
  forall z', z' <= z -> secures t board z'.
Proof.
  induction 1 as [t board z Hterm Hu|board z m Hterm Hm _ IH|board z Hterm _ IH];
    intros z' Hle.
  - apply secures_end; [done|lia].
  - eapply secures_X; [done|exact Hm|by apply IH].
  - apply secures_O; [done|]. intros m Hm. by apply IH.
Qed.

Lemma concedes_weaken t board z : concedes t board z ->
  forall z', z <= z' -> concedes t board z'.
Proof.
  induction 1 as [t board z Hterm Hu|board z m Hterm Hm _ IH|board z Hterm _ IH];
    intros z' Hle.
  - apply concedes_end; [done|lia].
  - eapply concedes_O; [done|exact Hm|by apply IH].
  - apply concedes_X; [done|]. intros m Hm. by apply IH.
Qed.

(** What [X] can secure never exceeds what [O] can hold [X] to. *)
Lemma secures_concedes t board z1 : secures t board z1 ->
  forall z2, concedes t board z2 -> z1 <= z2.
Proof.
  induction 1 as [t board z Hterm Hu|board z m Hterm Hm _ IH|board z Hterm _ IH];
    intros z2 Hc.
  - inversion Hc; subst; [lia|congruence|congruence].
  - inversion Hc as [? ? ? Hterm'|?|? ? ? Hall]; subst; [congruence|].
    apply IH. by apply Hall.
  - inversion Hc as [? ? ? Hterm'|? ? m' ? Hm' Hc'|?]; subst; [congruence|].
    by apply (IH m').
Qed.

Lemma gameValue_unique t board z1 z2 :
  gameValue t board z1 -> gameValue t board z2 -> z1 = z2.
Proof.
  intros [Hs1 Hc1] [Hs2 Hc2].
  pose proof (secures_concedes _ _ _ Hs1 _ Hc2).
  pose proof (secures_concedes _ _ _ Hs2 _ Hc1). lia.
Qed.

(** The value returned by unpruned minimax is the value of the game. *)
Lemma minimax_gameValue n : forall board p,
  (emptyCount board <= n)%nat ->
  exists r z, minimax board p = Ret r /\ value r = Fin z /\
              gameValue p board z.
Proof.
  induction n as [n IH] using lt_wf_ind. intros board p Hn.
  destruct (terminal board) eqn:Hterm.
  - eexists _, _. split; [by apply minimax_terminal|]. split; [done|].
    split; [apply secures_end|apply concedes_end]; (done || lia).
  - destruct (minimax_spec board p Hterm)
      as (z & m & Hmm & Hm & Hval & Hall & _).
    exists (mkResult (Fin z) (Some m)), z. split; [done|]. split; [done|].
    assert (Hkid : forall m' z', cell board m' = Some None ->
              moveValue board p m' = Ret (Fin z') ->
              gameValue (other p) (place board m' p) z').
    { intros m' z' Hcell (nb & r' & Hnb & Hr' & Hv')%moveValue_Ret.
      pose proof (emptyCount_applyMove _ _ _ _ Hnb) as Hcnt.
      apply applyMove_Ret in Hnb as [_ ->].
      destruct (IH (emptyCount (<[Z.to_nat m' := Some p]> board)))
        with (board := <[Z.to_nat m' := Some p]> board) (p := other p)
        as (r'' & z'' & Hr'' & Hz'' & Hgv); [lia|done|].
      rewrite Hr' in Hr''. injection Hr'' as <-.
      rewrite Hv' in Hz''. by injection Hz'' as ->. }
    assert (Hothers : forall m', cell board m' = Some None ->
              exists z', gameValue (other p) (place board m' p) z' /\
                         prefers p (Fin z) (Fin z')).
    { intros m' Hcell.
      destruct (Hall m' (proj2 (elem_of_availableMoves _ _) Hcell))
        as (z' & Hz' & Hpref).
      exists z'. split; [by apply Hkid|done]. }
    apply elem_of_availableMoves in Hm.
    destruct (Hkid m z Hm Hval) as [Hs Hc].
    destruct p; simpl in *; split.
    + by eapply secures_X.
    + apply concedes_X; [done|]. intros m' Hcell.
      destruct (Hothers m' Hcell) as (z' & [_ Hc'] & Hpref).
      apply (concedes_weaken _ _ _ Hc'). clear -Hpref. num.
    + apply secures_O; [done|]. intros m' Hcell.
      destruct (Hothers m' Hcell) as (z' & [Hs' _] & Hpref).
      apply (secures_weaken _ _ _ Hs'). clear -Hpref. num.
    + by eapply concedes_O.
Qed.

Lemma moveValue_gameValue board p m z :
  cell board m = Some None ->
  moveValue board p m = Ret (Fin z) <->
  gameValue (other p) (place board m p) z.
Proof.
  intros Hcell. apply elem_of_availableMoves in Hcell.
  pose proof (applyMove_available board m p Hcell) as Hnb.
  destruct (minimax_gameValue _ (place board m p) (other p) (Nat.le_refl _))
    as (r & z' & Hr & Hz & Hgv).
  assert (Hval : moveValue board p m = Ret (Fin z')).
  { apply moveValue_Ret. exists (place board m p), r. by rewrite <- Hz. }
  split.
  - rewrite Hval. by intros [= ->].
  - intros Hgv'. by rewrite (gameValue_unique _ _ _ _ Hgv' Hgv).
Qed.

(** C6. The choice of [minimaxAB] is fixed by the game alone. On a board
    that is not terminal (reachable or not) the move returned is a cell that
    reads [null] and keeps the value of the game, it is the least index
    among all such cells, every cell that reads [null] being considered, and
    so it is the only move with these two properties: repeated calls cannot
    differ. The value of the game is [gameValue], defined without the
    evaluators and without [availableMoves]. *)
Theorem minimaxAB_lowest_optimal (board : Board) (p : Player) :
  terminal board = false ->
  exists m, minimaxAB board p = Ret (Some m) /\
    optimalCell board p m /\
    (forall m', optimalCell board p m' -> m <= m') /\
    (forall m', optimalCell board p m' ->
       (forall m'', optimalCell board p m'' -> m' <= m'') -> m' = m).
Proof.
  intros Hterm.
  destruct (minimax_spec board p Hterm)
    as (z & m & Hmm & Hm & Hval & _ & Hleast).
  destruct (minimax_gameValue _ board p (Nat.le_refl _))
    as (r & z0 & Hr & Hz & Hgv).
  rewrite Hmm in Hr. injection Hr as <-. simpl in Hz. injection Hz as <-.
  apply elem_of_availableMoves in Hm as Hcell.
  assert (Hopt : optimalCell board p m).
  { split; [done|]. exists z. split; [done|].
    by apply moveValue_gameValue. }
  assert (Hmin : forall m', optimalCell board p m' -> m <= m').
  { intros m' (Hcell' & z' & Hgv' & Hkid).
    rewrite (gameValue_unique _ _ _ _ Hgv' Hgv) in Hkid.
    apply Hleast; [by apply elem_of_availableMoves|].
    by apply moveValue_gameValue. }
  exists m. split; [by rewrite minimaxAB_minimax, Hmm|].
  split; [done|]. split; [done|].
  intros m' Hopt' Hmin'. specialize (Hmin m' Hopt').
  specialize (Hmin' m Hopt). lia.
Qed.

(** C4, as the code has it. On a terminal board [minimaxAB] throws nothing:
    for either player it returns [null]. *)
Theorem minimaxAB_terminal_null (board : Board) (p : Player) :
  terminal board = true -> minimaxAB board p = Ret None.
Proof.
  intros Hterm. by rewrite minimaxAB_minimax, (minimax_terminal _ _ Hterm).
Qed.

(** C4, as stated, fails: on the drawn board the entry point returns
    [null] instead of throwing. *)
Lemma minimaxAB_terminal_no_throw :
  terminal drawnBoard = true /\
  minimaxAB drawnBoard X = Ret None /\
  ~ (exists msg, minimaxAB drawnBoard X = Throw msg).
Proof.
  split; [reflexivity|]. split; [reflexivity|].
  intros [msg H]. vm_compute in H. discriminate.
Qed.

(** The scenarios of the specification: a winning move is taken, a
    threat is answered with the lowest of the moves that hold the draw, and
    a full board without a line is a terminal draw. *)
Example minimaxAB_completes_row :
  minimaxAB [Some X; Some X; None; Some O; Some O; None; None; None; None] X
  = Ret (Some 2).
Proof. by vm_compute. Qed.

Example minimaxAB_holds_draw :
  minimaxAB [Some X; None; None; None; Some O; None; None; None; Some X] O
  = Ret (Some 1).
Proof. by vm_compute. Qed.

Example drawnBoard_terminal :
  terminal drawnBoard = true /\ calculateWinner drawnBoard = None /\
  utility drawnBoard = 0.
Proof. by vm_compute. Qed.

(** *** The bot and the outcome of the game *)

(** C1, as the code has it. From a reachable board that is not already
    lost for the bot under minimax, every finished game in which the bot
    plays its side through [minimaxAB], the human playing any legal moves,
    ends with a utility that is not a loss for the bot. *)
Theorem engine_never_loses_unless_lost (botPlayer : Player)
    (board final : Board) :
  reachable board ->
  notLost botPlayer board ->
  rtc (step botPlayer) board final ->
  terminal final = true ->
  okFor botPlayer (utility final).
Proof.
  intros [_ Hinv]%reachable_inv Hsafe Hplay Hterm.
  by apply (notLost_neverLoses botPlayer board Hinv Hsafe final).
Qed.

Lemma reachable_lostBoard : reachable lostBoard.
Proof.
  apply (reachable_move
           [Some X; Some O; None; None; None; None; None; None; None] 4);
    [|reflexivity|reflexivity].
  apply (reachable_move
           [Some X; None; None; None; None; None; None; None; None] 1);
    [|reflexivity|reflexivity].
  apply (reachable_move initialBoard 0); [|reflexivity|reflexivity].
  apply reachable_init.
Qed.

(** C1, as stated, fails: from [lostBoard] the bot plays [O] with
    [minimaxAB] (cell 2), the human completes the diagonal, and the game
    ends with utility 1. *)
Lemma engine_loses_lost_position :
  reachable lostBoard /\
  rtc (step O) lostBoard lostFinal /\
  terminal lostFinal = true /\
  utility lostFinal = 1 /\
  ~ neverLoses O lostBoard.
Proof.
  assert (Hplay : rtc (step O) lostBoard lostFinal).
  { eapply rtc_l.
    { apply (step_bot O lostBoard 2
               [Some X; Some O; Some O; None; Some X; None; None; None; None]);
        by vm_compute. }
    eapply rtc_l; [|apply rtc_refl].
    apply (step_human O _ 8); by vm_compute. }
  split; [apply reachable_lostBoard|]. split; [done|].
  split; [reflexivity|]. split; [reflexivity|].
  intros Hnever. specialize (Hnever lostFinal Hplay eq_refl).
  vm_compute in Hnever. by apply Hnever.
Qed.

(* ===================================================================== *)
(** ** The theorems at concrete boards *)
(* ===================================================================== *)

Lemma reachable_midBoard : reachable midBoard.
Proof.
  apply (reachable_move
           [Some X; Some O; None; None; None; None; None; None; Some X] 4);
    [|reflexivity|reflexivity].
  apply (reachable_move
           [Some X; Some O; None; None; None; None; None; None; None] 8);
    [|reflexivity|reflexivity].
  apply (reachable_move
           [Some X; None; None; None; None; None; None; None; None] 1);
    [|reflexivity|reflexivity].
  apply (reachable_move initialBoard 0); [|reflexivity|reflexivity].
  apply reachable_init.
Defined.

Lemma notLost_midBoard : notLost X midBoard.
Proof.
  exists (mkResult (Fin 0) (Some 7)), 0.
  split; [by vm_compute|]. split; [reflexivity|]. simpl. lia.
Defined.

(** The bot blocks at 7, 2 and 3; the human answers at 6 and 5. *)
Lemma play_midBoard : rtc (step X) midBoard drawnBoard.
Proof.
  eapply rtc_l.
  { apply (step_bot X midBoard 7
             [Some X; Some O; None; None; Some O; None; None; Some X; Some X]);
      by vm_compute. }
  eapply rtc_l.
  { apply (step_human X _ 6
             [Some X; Some O; None; None; Some O; None; Some O; Some X; Some X]);
      by vm_compute. }
  eapply rtc_l.
  { apply (step_bot X _ 2
             [Some X; Some O; Some X; None; Some O; None; Some O; Some X; Some X]);
      by vm_compute. }
  eapply rtc_l.
  { apply (step_human X _ 5
             [Some X; Some O; Some X; None; Some O; Some O; Some O; Some X; Some X]);
      by vm_compute. }
  eapply rtc_l; [|apply rtc_refl].
  apply (step_bot X _ 3 drawnBoard); by vm_compute.
Defined.

Lemma engine_never_loses_unless_lost_witness :
  reachable midBoard /\ notLost X midBoard /\
  rtc (step X) midBoard drawnBoard /\ terminal drawnBoard = true /\
  okFor X (utility drawnBoard).
Proof.
  split; [apply reachable_midBoard|].
  split; [apply notLost_midBoard|].
  split; [apply play_midBoard|].
  split; [reflexivity|].
  apply (engine_never_loses_unless_lost X midBoard drawnBoard);
    [apply reachable_midBoard|apply notLost_midBoard
    |apply play_midBoard|reflexivity].
Defined.

Lemma minimaxAB_returns_available_move_witness :
  reachable initialBoard /\ terminal initialBoard = false /\
  exists m, minimaxAB initialBoard X = Ret (Some m) /\
    m ∈ availableMoves initialBoard /\ cell initialBoard m = Some None /\
    0 <= m <= 8.
Proof.
  split; [apply reachable_init|]. split; [reflexivity|].
  apply (minimaxAB_returns_available_move initialBoard X);
    [apply reachable_init|reflexivity].
Defined.

Lemma minimaxAB_terminal_null_witness :
  terminal drawnBoard = true /\ minimaxAB drawnBoard O = Ret None.
Proof.
  split; [reflexivity|].
  apply (minimaxAB_terminal_null drawnBoard O). reflexivity.
Defined.

Lemma applyMove_throws_iff_occupied_witness :
  length midBoard = 9%nat /\ 0 <= 4 <= 8 /\
  (applyMove midBoard 4 X = Throw "Invalid move" <->
     exists q, cell midBoard 4 = Some (Some q)) /\
  (cell midBoard 4 = Some None ->
     exists b', applyMove midBoard 4 X = Ret b' /\ cell b' 4 = Some (Some X)).
Proof.
  split; [reflexivity|]. split; [lia|].
  apply (applyMove_throws_iff_occupied midBoard 4 X); [reflexivity|lia].
Defined.

Lemma applyMove_out_of_range_witness :
  length initialBoard = 9%nat /\
  (9 < 0 \/ 8 < 9 -> applyMove initialBoard 9 O = Throw "Invalid move") /\
  (forall b', applyMove initialBoard 9 O = Ret b' ->
     0 <= 9 <= 8 /\ length b' = 9%nat).
Proof.
  split; [reflexivity|].
  apply (applyMove_out_of_range initialBoard 9 O). reflexivity.
Defined.

Lemma minimaxAB_lowest_optimal_witness :
  terminal midBoard = false /\
  minimaxAB midBoard X = Ret (Some 7) /\
  optimalCell midBoard X 7 /\
  (forall m', optimalCell midBoard X m' -> 7 <= m') /\
  ~ optimalCell midBoard X 2 /\
  (forall m', optimalCell midBoard X m' ->
     (forall m'', optimalCell midBoard X m'' -> m' <= m'') -> m' = 7).
Proof.
  split; [reflexivity|].
  destruct (minimaxAB_lowest_optimal midBoard X eq_refl)
    as (m & Hm & Hopt & Hmin & Honly).
  assert (Heq : m = 7) by (vm_compute in Hm; congruence).
  rewrite Heq in *.
  split; [reflexivity|]. split; [exact Hopt|]. split; [exact Hmin|].
  split; [|exact Honly].
  intros H2. specialize (Hmin 2 H2). lia.
Defined.

Lemma applyMove_frame_witness :
  ({[1%positive := initialBoard]} : gmap loc Board) !! 1%positive
    = Some initialBoard /\
  cell initialBoard 4 = Some None /\
  exists s' newBoard b',
    applyMoveRef {[1%positive := initialBoard]} 1%positive 4 X
      = (s', Ret newBoard) /\
    applyMove initialBoard 4 X = Ret b' /\
    ({[1%positive := initialBoard]} : gmap loc Board) !! newBoard = None /\
    s' !! newBoard = Some b' /\
    s' !! 1%positive = Some initialBoard /\
    (forall l, l <> newBoard ->
       s' !! l = ({[1%positive := initialBoard]} : gmap loc Board) !! l) /\
    length b' = length initialBoard /\
    cell b' 4 = Some (Some X) /\
    (forall i, i <> 4 -> cell b' i = cell initialBoard i).
Proof.
  split; [reflexivity|]. split; [reflexivity|].
  apply (applyMove_frame {[1%positive := initialBoard]} 1%positive
           initialBoard 4 X); reflexivity.
Defined.


(* ===================================================================== *)
(** ** Further properties of the board model *)
(* ===================================================================== *)

(** X1. [availableMoves] returns exactly the indices of the cells that are
    [null], each once, in strictly ascending order. *)
Theorem availableMoves_exact_ascending (board : Board) :
  (forall m, m ∈ availableMoves board <-> cell board m = Some None) /\
  StronglySorted Z.lt (availableMoves board) /\
  NoDup (availableMoves board).
Proof.
  split; [apply elem_of_availableMoves|].
  pose proof (availableMoves_sorted board) as Hsorted.
  split; [done|].
  induction Hsorted as [|m rest _ IH Hall]; constructor; [|done].
  intros Hin. rewrite Forall_forall in Hall. specialize (Hall m Hin). lia.
Qed.

Lemma filter_keeps_all (P : Z -> Prop) `{forall x, Decision (P x)} (l : list Z) :
  Forall P l -> filter P l = l.
Proof.
  induction 1 as [|x l Hx _ IH]; [done|].
  by rewrite filter_cons_True, IH.
Qed.

Lemma availableFrom_insert_filter rest : forall idx (i : nat) (p : Player),
  rest !! i = Some None ->
  availableFrom idx (<[i := Some p]> rest)
  = filter (fun k => k <> idx + Z.of_nat i) (availableFrom idx rest).
Proof.
  induction rest as [|sq rest IH]; intros idx i p H; [done|].
  destruct i as [|i]; simpl in *.
  - injection H as ->. rewrite decide_True by done.
    rewrite filter_cons_False by (intros Hne; apply Hne; lia).
    symmetry. apply filter_keeps_all.
    eapply Forall_impl; [apply availableFrom_lower|]. simpl. intros; lia.
  - rewrite (IH (idx + 1) i p H).
    replace (idx + 1 + Z.of_nat i) with (idx + Z.pos (Pos.of_succ_nat i)) by lia.
    case_decide; [|done].
    rewrite filter_cons_True by lia. done.
Qed.

(** X2. A move removes its cell, and nothing else, from the available moves;
    the cell cannot be played again. *)
Theorem availableMoves_applyMove (board : Board) (m : Z) (p q : Player)
    (b' : Board) :
  applyMove board m p = Ret b' ->
  availableMoves b' = filter (fun k => k <> m) (availableMoves board) /\
  (m ∉ availableMoves b') /\
  applyMove b' m q = Throw "Invalid move".
Proof.
  intros Hmove. pose proof Hmove as [Hm ->]%applyMove_Ret.
  apply elem_of_availableMoves in Hm as Hcell.
  pose proof (cell_range _ _ _ Hcell) as Hrange.
  apply cell_Some in Hcell as [_ Hcell].
  assert (Heq : availableMoves (<[Z.to_nat m := Some p]> board)
                = filter (fun k => k <> m) (availableMoves board)).
  { unfold availableMoves.
    rewrite (availableFrom_insert_filter _ 0 _ p Hcell).
    by replace (0 + Z.of_nat (Z.to_nat m)) with m by lia. }
  split; [done|]. split.
  - rewrite Heq. intros [Hne _]%list_elem_of_filter. done.
  - apply applyMove_Throw. split; [done|].
    rewrite cell_insert_eq by lia. done.
Qed.

(** X3. Two moves on distinct cells give the same board in either order. *)
Theorem applyMove_commute (board : Board) (m1 m2 : Z) (p1 p2 : Player)
    (b1 b12 : Board) :
  m1 <> m2 ->
  applyMove board m1 p1 = Ret b1 ->
  applyMove b1 m2 p2 = Ret b12 ->
  exists b2, applyMove board m2 p2 = Ret b2 /\ applyMove b2 m1 p1 = Ret b12.
Proof.
  intros Hne H1 H2.
  pose proof H1 as [Hm1 ->]%applyMove_Ret.
  pose proof H2 as [Hm2 ->]%applyMove_Ret.
  apply elem_of_availableMoves in Hm1 as Hc1.
  apply elem_of_availableMoves in Hm2 as Hc2.
  pose proof (cell_range _ _ _ Hc1) as Hr1.
  rewrite cell_insert_ne in Hc2 by (lia || done).
  pose proof (cell_range _ _ _ Hc2) as Hr2.
  exists (<[Z.to_nat m2 := Some p2]> board). split.
  - unfold applyMove. by rewrite decide_True.
  - unfold applyMove. rewrite decide_True.
    + f_equal. apply list_insert_insert_ne. lia.
    + rewrite cell_insert_ne by (lia || done). done.
Qed.

Lemma terminal_cases (board : Board) :
  terminal board = true <->
  calculateWinner board <> None \/ (forall i, cell board i <> Some None).
Proof.
  unfold terminal.
  by rewrite orb_true_iff, bool_decide_eq_true, no_empty_cell.
Qed.

Lemma lineHeldBy_applyMove board m p b' line q :
  applyMove board m p = Ret b' ->
  lineHeldBy board line q -> lineHeldBy b' line q.
Proof.
  intros [Hm ->]%applyMove_Ret.
  apply elem_of_availableMoves in Hm as Hcell.
  pose proof (cell_range _ _ _ Hcell) as Hrange.
  destruct line as [[a b] c]. unfold lineHeldBy.
  assert (Hkeep : forall i, cell board i = Some (Some q) ->
            cell (<[Z.to_nat m := Some p]> board) i = Some (Some q)).
  { intros i Hi. rewrite cell_insert_ne; [done|lia|].
    intros ->. congruence. }
  intros (Ha & Hb & Hc). auto.
Qed.

(** X4. Marks stay: a line that is held stays held after any move, and a
    terminal board stays terminal. *)
Theorem terminal_persists (board : Board) (m : Z) (p : Player) (b' : Board) :
  applyMove board m p = Ret b' ->
  (forall line q, lineHeldBy board line q -> lineHeldBy b' line q) /\
  (terminal board = true -> terminal b' = true).
Proof.
  intros Hmove. split.
  - intros line q. by apply (lineHeldBy_applyMove board m p).
  - intros [Hwin|Hfull]%terminal_cases.
    + destruct (calculateWinner board) as [w|] eqn:Hw; [|done].
      apply scanLines_Some in Hw as (l1 & line & l2 & Hsplit & Hheld & _).
      apply terminal_cases. left. intros Hw'.
      pose proof (proj1 (scanLines_None _ _) Hw') as Hnone.
      apply (Hnone line w).
      * rewrite Hsplit. apply elem_of_app. right. apply list_elem_of_here.
      * by apply (lineHeldBy_applyMove board m p).
    + apply applyMove_Ret in Hmove as [Hm%elem_of_availableMoves _].
      by destruct (Hfull m).
Qed.

(** *** Boards of legal play *)

Lemma counts_partition rest : forall idx,
  (countMarks X rest + countMarks O rest + length (availableFrom idx rest)
   = length rest)%nat.
Proof.
  induction rest as [|sq rest IH]; intros idx; [done|].
  rewrite !countMarks_cons. simpl. specialize (IH (idx + 1)).
  destruct sq as [[]|]; simpl in *; lia.
Qed.

(** X5. On a reachable board the nine cells split into the marks of [X], the
    marks of [O] and the empty cells; [X] has as many marks as [O] or one
    more; it is the turn of [X] exactly when the number of empty cells is
    odd; and a full board holds five marks of [X] and four of [O]. *)
Theorem reachable_counts (board : Board) :
  reachable board ->
  length board = 9%nat /\
  (countMarks X board + countMarks O board + emptyCount board = 9)%nat /\
  (countMarks X board = countMarks O board \/
   countMarks X board = S (countMarks O board)) /\
  getCurrentPlayer board = (if Nat.odd (emptyCount board) then X else O) /\
  (emptyCount board = 0%nat ->
   countMarks X board = 5%nat /\ countMarks O board = 4%nat).
Proof.
  intros [Hlen Hinv]%reachable_inv.
  pose proof (counts_partition board 0) as Hpart.
  fold (availableMoves board) in Hpart. fold (emptyCount board) in Hpart.
  rewrite Hlen in Hpart.
  split; [done|]. split; [done|]. split; [done|].
  unfold turnInv in Hinv. unfold getCurrentPlayer. split; [|lia].
  destruct (Nat.eqb_spec (countMarks X board) (countMarks O board)) as [Heq|Hne].
  - replace (Nat.odd (emptyCount board)) with true; [done|].
    symmetry. apply Nat.odd_spec. exists (4 - countMarks O board)%nat. lia.
  - replace (Nat.odd (emptyCount board)) with false; [done|].
    symmetry. rewrite <- Nat.negb_even. apply negb_false_iff.
    apply Nat.even_spec. exists (4 - countMarks O board)%nat. lia.
Qed.

(** X6. In legal play a move of the player whose turn it is passes the turn to
    the other player. *)
Theorem getCurrentPlayer_alternates (board : Board) (m : Z) (b' : Board) :
  reachable board ->
  applyMove board m (getCurrentPlayer board) = Ret b' ->
  getCurrentPlayer b' = other (getCurrentPlayer board).
Proof.
  intros [_ Hinv]%reachable_inv Hmove.
  by destruct (turn_passes _ _ _ Hinv Hmove).
Qed.

Lemma initialBoard_no_line line q : ~ lineHeldBy initialBoard line q.
Proof.
  destruct line as [[a b] c]. intros [[_ Ha]%cell_Some _].
  unfold initialBoard in Ha. apply lookup_replicate in Ha as [Ha _].
  discriminate.
Qed.

Lemma reachable_lines board :
  reachable board ->
  forall line q, line ∈ winningLines -> lineHeldBy board line q ->
    q = other (getCurrentPlayer board).
Proof.
  induction 1 as [|board m board' Hreach IH Hterm Hmove]; intros line q Hline Hheld.
  - by destruct (initialBoard_no_line line q).
  - apply reachable_inv in Hreach as [_ Hinv].
    destruct (turn_passes _ _ _ Hinv Hmove) as [_ ->].
    destruct (getCurrentPlayer board) eqn:Hp; destruct q; simpl; try done; exfalso.
    all: assert (Hnone : calculateWinner board = None)
      by (unfold terminal in Hterm; apply orb_false_iff in Hterm as [Hw _];
          apply bool_decide_eq_false in Hw;
          by destruct (calculateWinner board); [destruct Hw|]).
    all: pose proof (proj1 (scanLines_None _ _) Hnone line) as Hfree.
    all: apply applyMove_Ret in Hmove as [Hm ->].
    all: apply elem_of_availableMoves in Hm as Hcell.
    all: pose proof (cell_range _ _ _ Hcell) as Hrange.
    all: destruct line as [[a b] c]; destruct Hheld as (Ha & Hb & Hc).
    all: assert (Hold : forall i p,
           cell (<[Z.to_nat m := Some p]> board) i = Some (Some (other p)) ->
           cell board i = Some (Some (other p))).
    all: try (intros i p Hi; destruct (decide (i = m)) as [->|Hne];
         [rewrite cell_insert_eq in Hi by lia; destruct p; discriminate
         |by rewrite cell_insert_ne in Hi by (lia || done)]).
    + apply (Hfree O Hline). repeat split; by apply (Hold _ X).
    + apply (Hfree X Hline). repeat split; by apply (Hold _ O).
Qed.

(** X7. On a reachable board every held line belongs to the player who moved
    last: the two players never hold a line at the same time, and the
    winner returned by [calculateWinner] is the player who moved last. *)
Theorem reachable_single_winner (board : Board) :
  reachable board ->
  (forall line q, line ∈ winningLines -> lineHeldBy board line q ->
     q = other (getCurrentPlayer board)) /\
  (forall w, calculateWinner board = Some w ->
     w = other (getCurrentPlayer board)).
Proof.
  intros Hreach. split; [by apply reachable_lines|].
  intros w Hw.
  apply scanLines_Some in Hw as (l1 & line & l2 & Hsplit & Hheld & _).
  apply (reachable_lines board Hreach line w); [|done].
  rewrite Hsplit. apply elem_of_app. right. apply list_elem_of_here.
Qed.

(* ===================================================================== *)
(** ** Further properties of the search engine *)
(* ===================================================================== *)

Lemma utility_range board : -1 <= utility board <= 1.
Proof. unfold utility. repeat case_decide; lia. Qed.

Lemma value_range fuel : forall board,
  (emptyCount board < fuel)%nat ->
  (exists r z, maxValue fuel board = Ret r /\ value r = Fin z /\ -1 <= z <= 1) /\
  (exists r z, minValue fuel board = Ret r /\ value r = Fin z /\ -1 <= z <= 1).
Proof.
  induction fuel as [|fuel IH]; intros board Hfuel; [lia|].
  simpl. destruct (terminal board) eqn:Hterm.
  - pose proof (utility_range board).
    split; by eexists _, _.
  - pose proof (nonterminal_has_move board Hterm) as Hne.
    assert (Hkids : forall p m, m ∈ availableMoves board ->
      exists nb, applyMove board m p = Ret nb /\ (emptyCount nb < fuel)%nat).
    { intros p m Hm. eexists. split; [by apply applyMove_available|].
      pose proof (emptyCount_applyMove board m p _
                    (applyMove_available board m p Hm)). lia. }
    split.
    + assert (Hfin : Forall (childFin (minValue fuel) board X)
                       (availableMoves board)).
      { apply Forall_forall. intros m Hm.
        destruct (Hkids X m Hm) as (nb & Hnb & Hlt).
        destruct (IH nb Hlt) as [_ (r & z & Hr & Hz & _)].
        exists z. apply childValue_Ret. by exists nb, r. }
      destruct (maxLoopBF_spec _ _ _ Hfin NegInf None)
        as (v' & best' & Hrun & _ & Hup & Hcase).
      destruct Hcase as [[-> _]|(l1 & m & l2 & Hsplit & _ & Hc & _)].
      { destruct (availableMoves board) as [|m rest]; [done|].
        apply Forall_cons in Hfin as [[z Hz] _].
        specialize (Hup m (Fin z) (list_elem_of_here _ _) Hz). discriminate. }
      apply childValue_Ret in Hc as (nb & r & Hnb & Hr & Hv).
      pose proof (emptyCount_applyMove _ _ _ _ Hnb) as Hcnt.
      destruct (IH nb) as [_ (r' & z & Hr' & Hz & Hrange)]; [lia|].
      rewrite Hr in Hr'. injection Hr' as <-.
      eexists _, z. split; [done|]. simpl. split; [congruence|done].
    + assert (Hfin : Forall (childFin (maxValue fuel) board O)
                       (availableMoves board)).
      { apply Forall_forall. intros m Hm.
        destruct (Hkids O m Hm) as (nb & Hnb & Hlt).
        destruct (IH nb Hlt) as [(r & z & Hr & Hz & _) _].
        exists z. apply childValue_Ret. by exists nb, r. }
      destruct (minLoopBF_spec _ _ _ Hfin PosInf None)
        as (v' & best' & Hrun & _ & Hup & Hcase).
      destruct Hcase as [[-> _]|(l1 & m & l2 & Hsplit & _ & Hc & _)].
      { destruct (availableMoves board) as [|m rest]; [done|].
        apply Forall_cons in Hfin as [[z Hz] _].
        specialize (Hup m (Fin z) (list_elem_of_here _ _) Hz). discriminate. }
      apply childValue_Ret in Hc as (nb & r & Hnb & Hr & Hv).
      pose proof (emptyCount_applyMove _ _ _ _ Hnb) as Hcnt.
      destruct (IH nb) as [(r' & z & Hr' & Hz & Hrange) _]; [lia|].
      rewrite Hr in Hr'. injection Hr' as <-.
      eexists _, z. split; [done|]. simpl. split; [congruence|done].
Qed.

(** X9. The value that the pruned evaluators return at the root window is one
    of the three utilities -1, 0 and 1, on every board and for either
    player; on a terminal board it is the utility of the board. *)
Theorem search_value_is_utility (board : Board) (p : Player) :
  exists z mv,
    searchAB board p = Ret (mkResult (Fin z) mv) /\
    (z = -1 \/ z = 0 \/ z = 1) /\
    (terminal board = true -> z = utility board /\ mv = None).
Proof.
  rewrite minimax_searchAB.
  destruct (value_range _ board (searchFuel_enough board))
    as [(r1 & z1 & H1 & Hz1 & Hr1) (r2 & z2 & H2 & Hz2 & Hr2)].
  unfold minimax. destruct p; simpl.
  - destruct r1 as [v mv]. simpl in Hz1. subst v.
    exists z1, mv. split; [done|]. split; [lia|].
    intros Hterm. unfold searchFuel in H1. simpl in H1.
    rewrite Hterm in H1. by injection H1 as -> <-.
  - destruct r2 as [v mv]. simpl in Hz2. subst v.
    exists z2, mv. split; [done|]. split; [lia|].
    intros Hterm. unfold searchFuel in H2. simpl in H2.
    rewrite Hterm in H2. by injection H2 as -> <-.
Qed.

(** X10. On a board that is not terminal the value returned at the root window
    is the value of the position reached by the returned move, and it is
    the best of the values of the legal moves: the largest for [X], the
    smallest for [O]. *)
Theorem search_value_is_best_child (board : Board) (p : Player) :
  terminal board = false ->
  exists z m,
    searchAB board p = Ret (mkResult (Fin z) (Some m)) /\
    moveValue board p m = Ret (Fin z) /\
    forall m', m' ∈ availableMoves board ->
      exists z', moveValue board p m' = Ret (Fin z') /\
                 match p with X => z' <= z | O => z <= z' end.
Proof.
  intros Hterm. rewrite minimax_searchAB.
  destruct (minimax_spec board p Hterm) as (z & m & Hmm & _ & Hval & Hall & _).
  exists z, m. split; [done|]. split; [done|].
  intros m' Hm'. destruct (Hall m' Hm') as (z' & Hz' & Hpref).
  exists z'. split; [done|].
  clear -Hpref. destruct p; simpl in Hpref; num.
Qed.

(** X11. In every window [alpha < beta] both pruned evaluators return, and the
    value returned is the minimax value when that lies strictly inside the
    window, is at most [alpha] when the minimax value is, and at least
    [beta] when the minimax value is. *)
Theorem search_window (board : Board) (alpha beta : Num) :
  Num_lt alpha beta ->
  (exists r rbf,
     maxValueAB (searchFuel board) board alpha beta = Ret r /\
     maxValue (searchFuel board) board = Ret rbf /\
     window_ok alpha beta (value rbf) (value r)) /\
  (exists r rbf,
     minValueAB (searchFuel board) board alpha beta = Ret r /\
     minValue (searchFuel board) board = Ret rbf /\
     window_ok alpha beta (value rbf) (value r)).
Proof.
  intros Hab.
  destruct (search_ok _ board (searchFuel_enough board))
    as [(r1 & z1 & H1 & Hz1 & Hw1) (r2 & z2 & H2 & Hz2 & Hw2)].
  destruct (Hw1 _ _ Hab) as (ra & Hra & Hoka).
  destruct (Hw2 _ _ Hab) as (rb & Hrb & Hokb).
  split; eexists _, _; (split; [done|]); (split; [done|]).
  - by rewrite Hz1.
  - by rewrite Hz2.
Qed.


(* ===================================================================== *)
(** ** Properties of the component *)
(* ===================================================================== *)

Lemma other_involutive p : other (other p) = p.
Proof. by destruct p. Qed.

Lemma other_ne p : other p <> p.
Proof. by destruct p. Qed.

Lemma step_reachable bot board board' :
  reachable board -> step bot board board' -> reachable board'.
Proof.
  intros Hreach [m b' Hterm Hturn _ Hmove|i b' Hterm Hturn Hmove];
    rewrite <- Hturn in Hmove; by eapply reachable_move.
Qed.

Lemma step_emptyCount bot board board' :
  step bot board board' -> S (emptyCount board') = emptyCount board.
Proof.
  intros [m b' _ _ _ Hmove|i b' _ _ Hmove]; by eapply emptyCount_applyMove.
Qed.

(** The bot effect either leaves the state as it is, or replaces the board
    by a step of the bot. *)
Lemma botEffect_cases s h :
  BoardComponent.humanPlayer s = Some h ->
  exists s', BoardComponent.botEffect s = Ret s' /\
    ((s' = s /\
      (terminal (BoardComponent.board s) = true \/
       getCurrentPlayer (BoardComponent.board s) <> other h)) \/
     (exists b', s' = BoardComponent.setBoard s b' /\
        getCurrentPlayer (BoardComponent.board s) = other h /\
        step (other h) (BoardComponent.board s) b')).
Proof.
  intros Hh. unfold BoardComponent.botEffect, BoardComponent.botPlayer.
  rewrite Hh.
  destruct (terminal (BoardComponent.board s)) eqn:Hterm; simpl.
  { exists s. split; [done|]. left. split; [done|by left]. }
  destruct (decide (getCurrentPlayer (BoardComponent.board s) = other h))
    as [Hturn|Hturn].
  - rewrite bool_decide_eq_true_2 by done. simpl.
    destruct (minimaxAB_optimal (BoardComponent.board s) (other h) Hterm)
      as (m & Hbest & [Hm _] & _).
    rewrite Hbest. simpl.
    pose proof (applyMove_available _ _ (other h) Hm) as Hmove.
    rewrite Hmove. simpl.
    eexists. split; [done|]. right. eexists. split; [done|].
    split; [done|]. by eapply step_bot.
  - rewrite bool_decide_eq_false_2 by done. simpl.
    exists s. split; [done|]. left. split; [done|by right].
Qed.

(** [handleClick] either leaves the state as it is, or replaces the board
    by a step of the human. *)
Lemma handleClick_cases s h i :
  BoardComponent.humanPlayer s = Some h ->
  exists s', BoardComponent.handleClick s i = Ret s' /\
    ((s' = s /\
      (terminal (BoardComponent.board s) = true \/
       cell (BoardComponent.board s) i <> Some None \/
       getCurrentPlayer (BoardComponent.board s) <> h)) \/
     (exists b', s' = BoardComponent.setBoard s b' /\
        getCurrentPlayer (BoardComponent.board s) = h /\
        applyMove (BoardComponent.board s) i h = Ret b' /\
        step (other h) (BoardComponent.board s) b')).
Proof.
  intros Hh. unfold BoardComponent.handleClick. rewrite Hh.
  destruct (terminal (BoardComponent.board s)) eqn:Hterm; simpl.
  { exists s. split; [done|]. left. split; [done|by left]. }
  destruct (decide (cell (BoardComponent.board s) i = Some None))
    as [Hcell|Hcell].
  2:{ rewrite bool_decide_eq_false_2 by done. simpl.
      exists s. split; [done|]. left. split; [done|]. right. by left. }
  rewrite bool_decide_eq_true_2 by done. simpl.
  destruct (decide (getCurrentPlayer (BoardComponent.board s) = h))
    as [Hturn|Hturn].
  - rewrite bool_decide_eq_true_2 by done. simpl.
    apply elem_of_availableMoves in Hcell.
    pose proof (applyMove_available _ _ h Hcell) as Hmove.
    rewrite Hmove. simpl.
    eexists. split; [done|]. right. eexists. split; [done|].
    split; [done|]. split; [done|].
    apply (step_human (other h) _ i); rewrite ?other_involutive; done.
  - rewrite bool_decide_eq_false_2 by done. simpl.
    exists s. split; [done|]. left. split; [done|]. right. by right.
Qed.

(** X16. No event makes the component throw: [handleClick] returns before
    [applyMove] unless the cell is empty, and the bot applies a move of
    [availableMoves]. This holds in every state, reachable or not. *)
Theorem component_never_throws (s : BoardComponent.State)
    (e : BoardComponent.Event) :
  exists s', BoardComponent.fire s e = Ret s'.
Proof.
  destruct e as [|p|i| |]; simpl; eauto.
  - destruct (BoardComponent.humanPlayer s) as [h|] eqn:Hh.
    + destruct (handleClick_cases s h i Hh) as (s' & Hs' & _). eauto.
    + unfold BoardComponent.handleClick. rewrite Hh. eauto.
  - destruct (BoardComponent.humanPlayer s) as [h|] eqn:Hh.
    + destruct (botEffect_cases s h Hh) as (s' & Hs' & _). eauto.
    + unfold BoardComponent.botEffect. rewrite Hh. eauto.
Qed.

Lemma stateInv_step s h b' :
  BoardComponent.humanPlayer s = Some h ->
  stateInv s -> step (other h) (BoardComponent.board s) b' ->
  stateInv (BoardComponent.setBoard s b').
Proof.
  unfold stateInv. intros Hh. simpl. rewrite Hh.
  intros [Hreach Hsafe] Hstep. split; [by eapply step_reachable|].
  apply reachable_inv in Hreach as [_ Hinv].
  by destruct (step_notLost _ _ _ Hinv Hsafe Hstep).
Qed.

Lemma reachableState_inv s : BoardComponent.reachableState s -> stateInv s.
Proof.
  induction 1 as [|s e s' _ IH Hrendered Hfire]; [done|].
  destruct e as [|p|i| |]; simpl in Hfire.
  - by injection Hfire as <-.
  - injection Hfire as <-. simpl in Hrendered.
    apply bool_decide_eq_true_1 in Hrendered.
    unfold stateInv in *. rewrite Hrendered in IH. simpl. rewrite IH.
    split; [apply reachable_init|apply initialBoard_notLost].
  - destruct (BoardComponent.humanPlayer s) as [h|] eqn:Hh.
    + destruct (handleClick_cases s h i Hh)
        as (s'' & Hs'' & [[-> _]|(b' & -> & _ & _ & Hstep)]);
        rewrite Hfire in Hs''; injection Hs'' as ->; [done|].
      by apply (stateInv_step s h).
    + unfold BoardComponent.handleClick in Hfire. rewrite Hh in Hfire.
      by injection Hfire as <-.
  - destruct (BoardComponent.humanPlayer s) as [h|] eqn:Hh.
    + destruct (botEffect_cases s h Hh)
        as (s'' & Hs'' & [[-> _]|(b' & -> & _ & Hstep)]);
        rewrite Hfire in Hs''; injection Hs'' as ->; [done|].
      by apply (stateInv_step s h).
    + unfold BoardComponent.botEffect in Hfire. rewrite Hh in Hfire.
      by injection Hfire as <-.
  - by injection Hfire as <-.
Qed.

(** X17. In every state the component goes through, the board is one of legal
    play from the empty board, and it is the empty board for as long as no
    side is chosen. *)
Theorem component_board_reachable (s : BoardComponent.State) :
  BoardComponent.reachableState s ->
  reachable (BoardComponent.board s) /\
  (BoardComponent.humanPlayer s = None ->
   BoardComponent.board s = initialBoard).
Proof.
  intros Hinv%reachableState_inv. unfold stateInv in Hinv.
  destruct (BoardComponent.humanPlayer s) as [h|].
  - split; [tauto|done].
  - rewrite Hinv. split; [apply reachable_init|done].
Qed.

(** X18. The comment of the status message, [Since user never wins, any winner
    is the bot]: in every state the component goes through, a winner
    returned by [calculateWinner] is the bot, and the status names the bot. *)
Theorem component_winner_is_bot (s : BoardComponent.State) (w : Player) :
  BoardComponent.reachableState s ->
  calculateWinner (BoardComponent.board s) = Some w ->
  exists h, BoardComponent.humanPlayer s = Some h /\ w = other h /\
    BoardComponent.botPlayer s = Some w /\
    BoardComponent.status s
    = String.append "Winner: " (BoardComponent.markString (other h)).
Proof.
  intros Hinv%reachableState_inv Hw. unfold stateInv in Hinv.
  destruct (BoardComponent.humanPlayer s) as [h|] eqn:Hh.
  - destruct Hinv as [_ Hsafe]. exists h. split; [done|].
    assert (Hterm : terminal (BoardComponent.board s) = true).
    { unfold terminal. rewrite Hw. by rewrite bool_decide_eq_true_2. }
    pose proof (notLost_terminal _ _ Hsafe Hterm) as Hok.
    unfold utility in Hok. rewrite Hw in Hok.
    assert (w = other h) as ->.
    { destruct w, h; simpl in *; try done;
        repeat case_decide; try done; lia. }
    split; [done|].
    unfold BoardComponent.botPlayer, BoardComponent.status.
    by rewrite Hh, Hw.
  - rewrite Hinv in Hw. discriminate.
Qed.

Lemma step_changes bot board board' : step bot board board' -> board' <> board.
Proof.
  intros Hstep%step_emptyCount ->. lia.
Qed.

(** X19. The changes of the board made by the two handlers are exactly the steps
    of the game: with the human playing [h], a board [b'] other than the
    current one is set by the bot effect or by a click if and only if it is
    a step of the game of the bot. *)
Theorem component_moves_are_steps (b b' : Board) (h : Player)
    (t : BoardComponent.Theme) :
  step (other h) b b' <->
  b' <> b /\
  (BoardComponent.botEffect (BoardComponent.mkState b (Some h) t)
     = Ret (BoardComponent.mkState b' (Some h) t) \/
   exists i,
     BoardComponent.handleClick (BoardComponent.mkState b (Some h) t) i
     = Ret (BoardComponent.mkState b' (Some h) t)).
Proof.
  set (s := BoardComponent.mkState b (Some h) t).
  change (BoardComponent.mkState b' (Some h) t)
    with (BoardComponent.setBoard s b').
  split.
  - intros Hstep. split; [by eapply step_changes|].
    destruct Hstep as [m b'' Hterm Hturn Hbest Hmove|i b'' Hterm Hturn Hmove].
    + left. unfold BoardComponent.botEffect. simpl.
      rewrite Hterm, Hturn, bool_decide_eq_true_2 by done. simpl.
      rewrite Hbest. simpl. by rewrite Hmove.
    + right. exists i. unfold BoardComponent.handleClick. simpl.
      rewrite other_involutive in Hturn, Hmove.
      pose proof Hmove as [Hm%elem_of_availableMoves _]%applyMove_Ret.
      rewrite Hterm, Hturn, !bool_decide_eq_true_2 by done. simpl.
      by rewrite Hmove.
  - intros [Hne [Hbot|[i Hclick]]].
    + destruct (botEffect_cases s h eq_refl)
        as (s' & Hs' & [[-> _]|(b'' & -> & _ & Hstep)]);
        rewrite Hbot in Hs'.
      * injection Hs' as Heq. by destruct Hne.
      * injection Hs' as ->. done.
    + destruct (handleClick_cases s h i eq_refl)
        as (s' & Hs' & [[-> _]|(b'' & -> & _ & _ & Hstep)]);
        rewrite Hclick in Hs'.
      * injection Hs' as Heq. by destruct Hne.
      * injection Hs' as ->. done.
Qed.

(** X20. Turns alternate: in a state the component goes through, once the bot
    effect has run, running it again changes nothing, and once a click has
    been handled, no further click changes anything until the bot has moved:
    neither side ever moves twice in a row. *)
Theorem component_turns_alternate (s : BoardComponent.State) :
  BoardComponent.reachableState s ->
  (forall s', BoardComponent.botEffect s = Ret s' ->
     BoardComponent.botEffect s' = Ret s') /\
  (forall i s', BoardComponent.handleClick s i = Ret s' -> s' <> s ->
     forall j, BoardComponent.handleClick s' j = Ret s').
Proof.
  intros Hinv%reachableState_inv. unfold stateInv in Hinv.
  destruct (BoardComponent.humanPlayer s) as [h|] eqn:Hh.
  2:{ split.
      - intros s' Hs'. unfold BoardComponent.botEffect in Hs'.
        rewrite Hh in Hs'. injection Hs' as <-.
        unfold BoardComponent.botEffect. by rewrite Hh.
      - intros i s' Hs' Hchanged. unfold BoardComponent.handleClick in Hs'.
        rewrite Hh in Hs'. by injection Hs' as <-. }
  destruct Hinv as [[_ Hturns]%reachable_inv _].
  split.
  - intros s' Hs'.
    destruct (botEffect_cases s h Hh)
      as (s'' & Hs'' & [[-> _]|(b' & -> & Hturn & Hstep)]);
      rewrite Hs' in Hs''; injection Hs'' as ->; [done|].
    assert (Hnext : getCurrentPlayer b' = h).
    { destruct Hstep as [m b'' _ _ _ Hmove|i b'' _ Hcur Hmove].
      - rewrite <- Hturn in Hmove.
        destruct (turn_passes _ _ _ Hturns Hmove) as [_ ->].
        by rewrite Hturn, other_involutive.
      - rewrite Hturn in Hcur. by destruct (other_ne (other h)). }
    destruct (botEffect_cases (BoardComponent.setBoard s b') h Hh)
      as (s'' & Hs'' & [[-> _]|(b'' & _ & Hcur & _)]); [done|].
    simpl in Hcur. rewrite Hnext in Hcur. by destruct (other_ne h).
  - intros i s' Hs' Hchanged j.
    destruct (handleClick_cases s h i Hh)
      as (s'' & Hs'' & [[-> _]|(b' & -> & Hturn & Hmove & _)]);
      rewrite Hs' in Hs''; injection Hs'' as ->; [done|].
    rewrite <- Hturn in Hmove.
    destruct (turn_passes _ _ _ Hturns Hmove) as [_ Hnext].
    destruct (handleClick_cases (BoardComponent.setBoard s b') h j Hh)
      as (s'' & Hs'' & [[-> _]|(b'' & _ & Hcur & _)]); [done|].
    simpl in Hcur. rewrite Hnext, Hturn in Hcur. by destruct (other_ne h).
Qed.

(** X15. Every step fills one cell: a game of [n] steps leaves [n] fewer empty
    cells, so a game takes at most as many steps as the board has empty
    cells, nine from the empty board. *)
Theorem game_length (bot : Player) (n : nat) (board final : Board) :
  nsteps (step bot) n board final ->
  (n + emptyCount final = emptyCount board)%nat /\
  (n <= length board)%nat.
Proof.
  intros Hplay.
  assert (Hcount : (n + emptyCount final = emptyCount board)%nat).
  { induction Hplay as [|n b1 b2 b3 Hstep _ IH]; [done|].
    apply step_emptyCount in Hstep. lia. }
  split; [done|]. pose proof (emptyCount_le board). lia.
Qed.

(** X14. Play stops exactly at the terminal boards: from a board that is not
    terminal some step is possible (the bot has a move when it is its turn,
    the human has an empty cell to click when it is theirs), and from a
    terminal board none is. *)
Theorem play_stops_at_terminal (bot : Player) (board : Board) :
  terminal board = false <-> exists board', step bot board board'.
Proof.
  split.
  - intros Hterm.
    destruct (decide (getCurrentPlayer board = bot)) as [Hturn|Hturn].
    + destruct (minimaxAB_optimal board bot Hterm) as (m & Hbest & [Hm _] & _).
      eexists. eapply step_bot; [done|done|exact Hbest|].
      by apply applyMove_available.
    + pose proof (nonterminal_has_move board Hterm) as Hne.
      destruct (availableMoves board) as [|m rest] eqn:Hmoves; [done|].
      assert (Hm : m ∈ availableMoves board)
        by (rewrite Hmoves; apply list_elem_of_here).
      eexists. eapply (step_human bot board m); [done| |].
      * destruct (getCurrentPlayer board), bot; done.
      * by apply applyMove_available.
  - by intros [board' [m b' Hterm _ _ _|i b' Hterm _ _]].
Qed.

(** *** What the bot keeps *)

Lemma step_guaranteed botPlayer z0 board board' :
  turnInv board -> guaranteed botPlayer z0 board ->
  step botPlayer board board' ->
  turnInv board' /\ guaranteed botPlayer z0 board'.
Proof.
  intros Hinv (r & z & Hr & Hz & Hok) Hstep.
  destruct Hstep as [m b' Hterm Hturn Hbest Hmove|i b' Hterm Hturn Hmove].
  - rewrite <- Hturn in Hmove.
    destruct (turn_passes _ _ _ Hinv Hmove) as [Hinv' Hturn'].
    split; [done|]. rewrite Hturn in *.
    destruct (minimax_spec board botPlayer Hterm)
      as (z1 & m0 & Hmm & _ & Hval & _).
    rewrite Hmm in Hr. injection Hr as <-. simpl in Hz. injection Hz as ->.
    rewrite minimaxAB_minimax, Hmm in Hbest. simpl in Hbest.
    injection Hbest as ->.
    apply moveValue_Ret in Hval as (nb & r' & Hnb & Hr' & Hv').
    rewrite Hmove in Hnb. injection Hnb as <-.
    exists r', z. rewrite Hturn'. done.
  - rewrite <- Hturn in Hmove.
    destruct (turn_passes _ _ _ Hinv Hmove) as [Hinv' Hturn'].
    split; [done|]. rewrite Hturn in *.
    destruct (minimax_spec board (other botPlayer) Hterm)
      as (z1 & m0 & Hmm & _ & _ & Hall & _).
    rewrite Hmm in Hr. injection Hr as <-. simpl in Hz. injection Hz as ->.
    apply applyMove_Ret in Hmove as Hi. destruct Hi as [Hi _].
    destruct (Hall i Hi) as (z' & Hval & Hpref).
    apply moveValue_Ret in Hval as (nb & r' & Hnb & Hr' & Hv').
    rewrite Hmove in Hnb. injection Hnb as <-.
    exists r', z'. rewrite Hturn'. split; [done|]. split; [done|].
    clear -Hpref Hok. destruct botPlayer; simpl in *; num.
Qed.

(** X13. The bot never ends a game worse than the minimax value of the position
    it starts from: from a reachable board of value [z0], every finished
    game of the bot has a utility at least [z0] when the bot plays [X] and
    at most [z0] when it plays [O]. In particular the bot wins every game
    from a position that is won for it. *)
Theorem engine_keeps_value (botPlayer : Player) (board final : Board)
    (r : MoveResult) (z0 : Z) :
  reachable board ->
  minimax board (getCurrentPlayer board) = Ret r ->
  value r = Fin z0 ->
  rtc (step botPlayer) board final ->
  terminal final = true ->
  match botPlayer with
  | X => z0 <= utility final
  | O => utility final <= z0
  end.
Proof.
  intros [_ Hinv]%reachable_inv Hr Hz Hplay Hterm.
  assert (Hstart : guaranteed botPlayer z0 board).
  { exists r, z0. split; [done|]. split; [done|]. destruct botPlayer; lia. }
  clear Hr Hz. revert Hinv Hstart.
  induction Hplay as [b|b b' final Hstep _ IH]; intros Hinv Hstart.
  - destruct Hstart as (r' & z & Hr' & Hz' & Hok).
    rewrite (minimax_terminal _ _ Hterm) in Hr'. injection Hr' as <-.
    simpl in Hz'. by injection Hz' as ->.
  - destruct (step_guaranteed _ _ _ _ Hinv Hstart Hstep). by apply IH.
Qed.

(** X8. On a reachable board the utility does not depend on the order in which
    the lines are scanned: it is 1 exactly when [X] holds a line, -1
    exactly when [O] holds a line, and 0 exactly when no line is held. *)
Theorem utility_reachable (board : Board) :
  reachable board ->
  (utility board = 1 <->
     exists line, line ∈ winningLines /\ lineHeldBy board line X) /\
  (utility board = -1 <->
     exists line, line ∈ winningLines /\ lineHeldBy board line O) /\
  (utility board = 0 <->
     forall line q, line ∈ winningLines -> ~ lineHeldBy board line q).
Proof.
  intros Hreach.
  pose proof (reachable_lines board Hreach) as Hlast.
  assert (Hwin : forall p, calculateWinner board = Some p <->
            exists line, line ∈ winningLines /\ lineHeldBy board line p).
  { intros p. split.
    - intros (l1 & line & l2 & Hsplit & Hheld & _)%scanLines_Some.
      exists line. split; [|done].
      rewrite Hsplit. apply elem_of_app. right. apply list_elem_of_here.
    - intros (line & Hline & Hheld).
      destruct (calculateWinner board) as [w|] eqn:Hw.
      + pose proof Hw as (l1 & line' & l2 & Hsplit & Hheld' & _)%scanLines_Some.
        assert (Hline' : line' ∈ winningLines).
        { rewrite Hsplit. apply elem_of_app. right. apply list_elem_of_here. }
        rewrite (Hlast line p Hline Hheld), (Hlast line' w Hline' Hheld').
        done.
      + by destruct (proj1 (scanLines_None _ _) Hw line p Hline). }
  unfold utility. split; [|split].
  - rewrite <- Hwin. repeat case_decide; split; intros; try done; try lia.
  - rewrite <- Hwin. repeat case_decide; split; intros; try done; try lia.
    congruence.
  - unfold calculateWinner in *. rewrite <- scanLines_None.
    repeat case_decide; split; intros; try done; try lia; try congruence.
    destruct (scanLines board winningLines) as [[]|]; done.
Qed.

(* ===================================================================== *)
(** ** The further properties at concrete boards and states *)
(* ===================================================================== *)

Lemma runEvents_reachable es : forall s s',
  BoardComponent.reachableState s -> runEvents s es = Some s' ->
  BoardComponent.reachableState s'.
Proof.
  induction es as [|e es IH]; intros s s' Hs Hrun; simpl in Hrun.
  - by injection Hrun as <-.
  - destruct (BoardComponent.rendered s e) eqn:Hrendered; [|discriminate].
    destruct (BoardComponent.fire s e) as [s1| |] eqn:Hfire; try discriminate.
    apply (IH s1); [|done]. by eapply BoardComponent.reachableState_fire.
Defined.

Lemma reachableState_wonState : BoardComponent.reachableState wonState.
Proof.
  apply (runEvents_reachable wonGame BoardComponent.initialState);
    [apply BoardComponent.reachableState_init|by vm_compute].
Defined.

Lemma availableMoves_applyMove_witness :
  applyMove midBoard 5 O
  = Ret [Some X; Some O; None; None; Some O; Some O; None; None; Some X] /\
  availableMoves
    [Some X; Some O; None; None; Some O; Some O; None; None; Some X]
  = filter (fun k => k <> 5) (availableMoves midBoard) /\
  (5 ∉ availableMoves
         [Some X; Some O; None; None; Some O; Some O; None; None; Some X]) /\
  applyMove [Some X; Some O; None; None; Some O; Some O; None; None; Some X]
    5 X = Throw "Invalid move".
Proof.
  split; [reflexivity|].
  apply (availableMoves_applyMove midBoard 5 O X). reflexivity.
Defined.

Lemma applyMove_commute_witness :
  2 <> 6 /\
  applyMove midBoard 2 X
  = Ret [Some X; Some O; Some X; None; Some O; None; None; None; Some X] /\
  applyMove [Some X; Some O; Some X; None; Some O; None; None; None; Some X]
    6 O
  = Ret [Some X; Some O; Some X; None; Some O; None; Some O; None; Some X] /\
  exists b2, applyMove midBoard 6 O = Ret b2 /\
    applyMove b2 2 X
    = Ret [Some X; Some O; Some X; None; Some O; None; Some O; None; Some X].
Proof.
  split; [lia|]. split; [reflexivity|]. split; [reflexivity|].
  apply (applyMove_commute midBoard 2 6 X O
           [Some X; Some O; Some X; None; Some O; None; None; None; Some X]);
    [lia|reflexivity|reflexivity].
Defined.

Lemma terminal_persists_witness :
  applyMove lostFinal 3 O
  = Ret [Some X; Some O; Some O; Some O; Some X; None; None; None; Some X] /\
  (forall line q, lineHeldBy lostFinal line q ->
     lineHeldBy
       [Some X; Some O; Some O; Some O; Some X; None; None; None; Some X]
       line q) /\
  (terminal lostFinal = true ->
   terminal [Some X; Some O; Some O; Some O; Some X; None; None; None; Some X]
   = true).
Proof.
  split; [reflexivity|].
  apply (terminal_persists lostFinal 3 O). reflexivity.
Defined.

Lemma reachable_counts_witness :
  reachable midBoard /\
  length midBoard = 9%nat /\
  (countMarks X midBoard + countMarks O midBoard + emptyCount midBoard = 9)%nat /\
  (countMarks X midBoard = countMarks O midBoard \/
   countMarks X midBoard = S (countMarks O midBoard)) /\
  getCurrentPlayer midBoard = (if Nat.odd (emptyCount midBoard) then X else O) /\
  (emptyCount midBoard = 0%nat ->
   countMarks X midBoard = 5%nat /\ countMarks O midBoard = 4%nat).
Proof.
  split; [apply reachable_midBoard|].
  apply (reachable_counts midBoard). apply reachable_midBoard.
Defined.

Lemma getCurrentPlayer_alternates_witness :
  reachable midBoard /\
  applyMove midBoard 7 (getCurrentPlayer midBoard)
  = Ret [Some X; Some O; None; None; Some O; None; None; Some X; Some X] /\
  getCurrentPlayer
    [Some X; Some O; None; None; Some O; None; None; Some X; Some X]
  = other (getCurrentPlayer midBoard).
Proof.
  split; [apply reachable_midBoard|]. split; [reflexivity|].
  apply (getCurrentPlayer_alternates midBoard 7);
    [apply reachable_midBoard|reflexivity].
Defined.

Lemma reachable_wonBoard : reachable wonBoard.
Proof.
  apply (reachable_move
           [Some X; Some O; Some O; Some X; Some X; Some O; None; None; None] 6);
    [|reflexivity|reflexivity].
  apply (reachable_move
           [Some X; Some O; Some O; Some X; Some X; None; None; None; None] 5);
    [|reflexivity|reflexivity].
  apply (reachable_move
           [Some X; Some O; Some O; Some X; None; None; None; None; None] 4);
    [|reflexivity|reflexivity].
  apply (reachable_move
           [Some X; Some O; None; Some X; None; None; None; None; None] 2);
    [|reflexivity|reflexivity].
  apply (reachable_move
           [Some X; Some O; None; None; None; None; None; None; None] 3);
    [|reflexivity|reflexivity].
  apply (reachable_move
           [Some X; None; None; None; None; None; None; None; None] 1);
    [|reflexivity|reflexivity].
  apply (reachable_move initialBoard 0); [|reflexivity|reflexivity].
  apply reachable_init.
Defined.

(** On [wonBoard] the column (0,3,6) is held by [X], [calculateWinner]
    returns [X], and [X] made the last move. *)
Lemma reachable_single_winner_witness :
  reachable wonBoard /\
  lineHeldBy wonBoard (0, 3, 6) X /\
  calculateWinner wonBoard = Some X /\
  X = other (getCurrentPlayer wonBoard) /\
  (forall line q, line ∈ winningLines -> lineHeldBy wonBoard line q ->
     q = other (getCurrentPlayer wonBoard)) /\
  (forall w, calculateWinner wonBoard = Some w ->
     w = other (getCurrentPlayer wonBoard)).
Proof.
  split; [apply reachable_wonBoard|].
  split; [by vm_compute|]. split; [reflexivity|].
  destruct (reachable_single_winner wonBoard reachable_wonBoard)
    as [Hlines Hwinner].
  split; [apply (Hwinner X); reflexivity|]. split; [exact Hlines|exact Hwinner].
Defined.

Lemma search_value_is_best_child_witness :
  terminal midBoard = false /\
  exists z m,
    searchAB midBoard X = Ret (mkResult (Fin z) (Some m)) /\
    moveValue midBoard X m = Ret (Fin z) /\
    forall m', m' ∈ availableMoves midBoard ->
      exists z', moveValue midBoard X m' = Ret (Fin z') /\ z' <= z.
Proof.
  split; [reflexivity|].
  apply (search_value_is_best_child midBoard X). reflexivity.
Defined.

Lemma search_window_witness :
  Num_lt (Fin 0) (Fin 1) /\
  (exists r rbf,
     maxValueAB (searchFuel midBoard) midBoard (Fin 0) (Fin 1) = Ret r /\
     maxValue (searchFuel midBoard) midBoard = Ret rbf /\
     window_ok (Fin 0) (Fin 1) (value rbf) (value r)) /\
  (exists r rbf,
     minValueAB (searchFuel midBoard) midBoard (Fin 0) (Fin 1) = Ret r /\
     minValue (searchFuel midBoard) midBoard = Ret rbf /\
     window_ok (Fin 0) (Fin 1) (value rbf) (value r)).
Proof.
  split; [reflexivity|].
  apply (search_window midBoard (Fin 0) (Fin 1)). reflexivity.
Defined.

(** Inside a window the move may differ from the move of unpruned minimax:
    here the value 0 is not above [alpha], and the first move is kept. *)
Example search_window_move_differs :
  maxValueAB (searchFuel midBoard) midBoard (Fin 0) (Fin 1)
  = Ret (mkResult (Fin 0) (Some 2)) /\
  maxValue (searchFuel midBoard) midBoard = Ret (mkResult (Fin 0) (Some 7)).
Proof. by vm_compute. Qed.


Lemma component_board_reachable_witness :
  BoardComponent.reachableState wonState /\
  reachable (BoardComponent.board wonState) /\
  (BoardComponent.humanPlayer wonState = None ->
   BoardComponent.board wonState = initialBoard).
Proof.
  split; [apply reachableState_wonState|].
  apply (component_board_reachable wonState). apply reachableState_wonState.
Defined.

Lemma component_winner_is_bot_witness :
  BoardComponent.reachableState wonState /\
  calculateWinner (BoardComponent.board wonState) = Some X /\
  exists h, BoardComponent.humanPlayer wonState = Some h /\ X = other h /\
    BoardComponent.botPlayer wonState = Some X /\
    BoardComponent.status wonState
    = String.append "Winner: " (BoardComponent.markString (other h)).
Proof.
  split; [apply reachableState_wonState|]. split; [reflexivity|].
  apply (component_winner_is_bot wonState X);
    [apply reachableState_wonState|reflexivity].
Defined.

Lemma reachableState_sideChosenState :
  BoardComponent.reachableState sideChosenState.
Proof.
  apply (runEvents_reachable [BoardComponent.ChooseSide O]
           BoardComponent.initialState);
    [apply BoardComponent.reachableState_init|by vm_compute].
Defined.

Lemma reachableState_botMovedState :
  BoardComponent.reachableState botMovedState.
Proof.
  apply (runEvents_reachable
           [BoardComponent.ChooseSide O; BoardComponent.BotTimer]
           BoardComponent.initialState);
    [apply BoardComponent.reachableState_init|by vm_compute].
Defined.

(** Once the human has chosen [O] the bot effect moves (cell 0) and, run
    again, does nothing; then a click on cell 4 moves and every further
    click does nothing. *)
Lemma component_turns_alternate_witness :
  BoardComponent.reachableState sideChosenState /\
  BoardComponent.botEffect sideChosenState = Ret botMovedState /\
  botMovedState <> sideChosenState /\
  BoardComponent.botEffect botMovedState = Ret botMovedState /\
  BoardComponent.reachableState botMovedState /\
  BoardComponent.handleClick botMovedState 4
  = Ret (BoardComponent.setBoard botMovedState
           [Some X; None; None; None; Some O; None; None; None; None]) /\
  forall j,
    BoardComponent.handleClick
      (BoardComponent.setBoard botMovedState
         [Some X; None; None; None; Some O; None; None; None; None]) j
    = Ret (BoardComponent.setBoard botMovedState
             [Some X; None; None; None; Some O; None; None; None; None]).
Proof.
  split; [apply reachableState_sideChosenState|].
  split; [by vm_compute|]. split; [discriminate|].
  destruct (component_turns_alternate sideChosenState
              reachableState_sideChosenState) as [Hbot _].
  split; [apply (Hbot botMovedState); by vm_compute|].
  split; [apply reachableState_botMovedState|].
  split; [by vm_compute|].
  destruct (component_turns_alternate botMovedState
              reachableState_botMovedState) as [_ Hclick].
  apply (Hclick 4); [by vm_compute|discriminate].
Defined.

Lemma nsteps_lostBoard : nsteps (step O) 2 lostBoard lostFinal.
Proof.
  eapply nsteps_l.
  { apply (step_bot O lostBoard 2
             [Some X; Some O; Some O; None; Some X; None; None; None; None]);
      by vm_compute. }
  eapply nsteps_l; [|apply nsteps_O].
  apply (step_human O _ 8); by vm_compute.
Defined.

Lemma game_length_witness :
  nsteps (step O) 2 lostBoard lostFinal /\
  (2 + emptyCount lostFinal = emptyCount lostBoard)%nat /\
  (2 <= length lostBoard)%nat.
Proof.
  split; [apply nsteps_lostBoard|].
  apply (game_length O 2 lostBoard lostFinal). apply nsteps_lostBoard.
Defined.

Lemma engine_keeps_value_witness :
  reachable midBoard /\
  minimax midBoard (getCurrentPlayer midBoard)
  = Ret (mkResult (Fin 0) (Some 7)) /\
  value (mkResult (Fin 0) (Some 7)) = Fin 0 /\
  rtc (step X) midBoard drawnBoard /\
  terminal drawnBoard = true /\
  0 <= utility drawnBoard.
Proof.
  split; [apply reachable_midBoard|]. split; [by vm_compute|].
  split; [reflexivity|]. split; [apply play_midBoard|].
  split; [reflexivity|].
  apply (engine_keeps_value X midBoard drawnBoard (mkResult (Fin 0) (Some 7)) 0);
    [apply reachable_midBoard|by vm_compute|reflexivity
    |apply play_midBoard|reflexivity].
Defined.

Lemma utility_reachable_witness :
  reachable midBoard /\
  (utility midBoard = 1 <->
     exists line, line ∈ winningLines /\ lineHeldBy midBoard line X) /\
  (utility midBoard = -1 <->
     exists line, line ∈ winningLines /\ lineHeldBy midBoard line O) /\
  (utility midBoard = 0 <->
     forall line q, line ∈ winningLines -> ~ lineHeldBy midBoard line q).
Proof.
  split; [apply reachable_midBoard|].
  apply (utility_reachable midBoard). apply reachable_midBoard.
Defined.
